(** * Audio transcriber: chunking, transcription and transcript assembly

    A shallow embedding of [audio_transcriber/transcriber.py] (and of the
    worker loop of [transcriber_ui.py]) together with the properties of the
    chunked audio pipeline that its specification states.

    Conventions of the embedding.
    - Python lists and numpy arrays are lists; a slice [a[i:j]] is
      [take (j - i) (drop i a)].
    - Unbounded Python integers that count things are [nat]; a speaker
      identifier is a [Z]; times in seconds are exact rationals [Q].
    - The directory [recorded_chunks] is a finite map from file names to
      files.
    - A block of statements under [try] is a computation in an error monad;
      the [except Exception] clause is the handler applied to it. *)

From stdpp Require Import gmap strings list fin_maps sorting.
From Stdlib Require Import Ascii ZArith QArith Qround Lqa DecimalString DecimalNat DecimalZ.

Open Scope nat_scope.

(** ** Module constants (transcriber.py, lines 41-45) *)

Definition CHUNK_DURATION : nat := 30.
Definition SAMPLE_RATE : nat := 16000.
Definition CHANNELS : nat := 1.
Definition CHUNK_SIZE : nat := 1024.

(** ** File mode: [process_audio_file]

    pydub measures and slices an [AudioSegment] in milliseconds:
    [len(audio)] is its duration in ms and [audio[i:j]] the audio from
    millisecond [i] up to millisecond [j], both ends clamped to the length.
    The audio is therefore a list with one element per millisecond; it is
    the audio after lines 333-338 have made it mono at 16 kHz. *)

Section FileMode.
Context {A : Type}.

(** [a[i:j]] for [0 <= i <= j]. *)
Definition slice (a : list A) (i j : nat) : list A := take (j - i) (drop i a).

(** [range(start, stop, step)] as the loop it abbreviates: yield [i] and
    advance by [step] for as long as [i < stop]. *)
Fixpoint range_loop (fuel i stop step : nat) : list nat :=
  match fuel with
  | O => []
  | S fuel' => if i <? stop then i :: range_loop fuel' (i + step) stop step else []
  end.

Definition range (start stop step : nat) : list nat :=
  range_loop (stop - start) start stop step.

Definition chunk_length_ms : nat := CHUNK_DURATION * 1000.

(** Line 344. *)
Definition total_chunks (audio : list A) : nat :=
  length audio / chunk_length_ms
  + (if length audio mod chunk_length_ms =? 0 then 0 else 1).

(** Lines 347-351, with the chunk length as a parameter. *)
Definition chunks_by (c : nat) (audio : list A) : list (list A) :=
  map (fun i => slice audio i (i + c)) (range 0 (length audio) c).

Definition process_audio_file (audio : list A) : list (list A) :=
  chunks_by chunk_length_ms audio.
End FileMode.

(** ** Decimal output of integers, as Python's [format] prints them *)

Definition str_of_nat (n : nat) : string := NilZero.string_of_uint (Nat.to_uint n).
Definition str_of_Z (z : Z) : string := NilZero.string_of_int (Z.to_int z).

(** [int(s)] on a string of decimal digits. *)
Definition nat_of_str (s : string) : option nat :=
  match s with
  | EmptyString => None
  | _ => Nat.of_uint <$> NilZero.uint_of_string s
  end.

Fixpoint zeros (n : nat) : string :=
  match n with O => EmptyString | S n' => String "0"%char (zeros n') end.

(** The format specification [0wd] on a natural number: zero-padded on the
    left to width [w]. *)
Definition zero_pad (w : nat) (n : nat) : string :=
  let s := str_of_nat n in zeros (w - String.length s) +:+ s.

(** ** Mic mode: [record_audio_chunk]

    The recording is driven by two kinds of events. The sound-device
    callback appends a block to [audio_buffer] (line 186); an iteration of
    the polling loop in which the stop signal is not set runs lines 227-252.
    The callback runs on the audio thread, so blocks may also arrive while
    an iteration is between reading the buffer (line 229) and clearing it
    (line 250): [Poll during] carries those blocks, and [Poll []] is an
    iteration that runs undisturbed. The run ends when the stop signal is
    seen, and the [finally] clause (lines 262-277) writes what is left. *)

Section Recorder.
Context {sample : Type}.
(** [(x * 32767).astype(np.int16)], sample by sample. *)
Variable to_int16 : sample -> Z.

Inductive event :=
| Callback (indata : list sample)
| Poll (during : list (list sample)).

Record recorder := Recorder {
  audio_buffer : list (list sample);
  chunk_count : nat;
  written : list (string * list Z)   (* the calls of [sf.write], in order *)
}.

Definition recorder_init : recorder := Recorder [] 0 [].

Definition chunk_filename (n : nat) : string :=
  "chunk_" +:+ zero_pad 3 n +:+ ".wav".

(** Lines 235-246 and 266-277: convert, count, name and write. *)
Definition save_chunk (chunk : list sample) (st : recorder) : recorder :=
  let n := chunk_count st + 1 in
  Recorder (audio_buffer st) n (written st ++ [(chunk_filename n, to_int16 <$> chunk)]).

Definition set_buffer (b : list (list sample)) (st : recorder) : recorder :=
  Recorder b (chunk_count st) (written st).

Definition callback (indata : list sample) (st : recorder) : recorder :=
  set_buffer (audio_buffer st ++ [indata]) st.

(** Lines 227-252. *)
Definition poll (spc : nat) (during : list (list sample)) (st : recorder) : recorder :=
  match audio_buffer st with
  | [] => set_buffer during st
  | _ :: _ =>
      let audio_data := concat (audio_buffer st) in
      if spc <=? length audio_data then
        let chunk := take spc audio_data in
        let st' := save_chunk chunk st in
        let remaining := drop spc audio_data in
        (* [audio_buffer.clear()] also discards the blocks of [during] *)
        set_buffer (if 0 <? length remaining then [remaining] else []) st'
      else set_buffer (audio_buffer st ++ during) st
  end.

(** Lines 262-277. *)
Definition finalize (st : recorder) : recorder :=
  match audio_buffer st with
  | [] => st
  | _ :: _ => save_chunk (concat (audio_buffer st)) st
  end.

Definition step (spc : nat) (st : recorder) (e : event) : recorder :=
  match e with
  | Callback indata => callback indata st
  | Poll during => poll spc during st
  end.

Definition record_loop (spc : nat) (events : list event) (st : recorder) : recorder :=
  fold_left (step spc) events st.

Definition record_with (spc : nat) (events : list event) : recorder :=
  finalize (record_loop spc events recorder_init).

Definition samples_per_chunk : nat := SAMPLE_RATE * 30.

Definition record_audio_chunk (events : list event) : recorder :=
  record_with samples_per_chunk events.

(** The chunks a run has emitted, in order. *)
Definition emitted (st : recorder) : list (list Z) := snd <$> written st.

(** The samples the device delivered during a run, in order. *)
Definition delivered (events : list event) : list sample :=
  concat (flat_map (fun e => match e with
                             | Callback b => [b]
                             | Poll during => during
                             end) events).

(** No block arrives while an iteration is between lines 229 and 250. *)
Definition undisturbed (events : list event) : Prop :=
  Forall (fun e => match e with Poll during => during = [] | Callback _ => True end) events.

(** Everything delivered so far is either in an emitted chunk or still in
    the buffer, in order. *)
Definition accounted (st : recorder) : list Z :=
  concat (emitted st) ++ (to_int16 <$> concat (audio_buffer st)).

(** The files are numbered from 1 in the order they are written. *)
Definition numbered (st : recorder) : Prop :=
  (fst <$> written st) = chunk_filename <$> seq 1 (chunk_count st).

(** The blocks that the device delivered, one by one. *)
Definition blocks_of (events : list event) : list (list sample) :=
  flat_map (fun e => match e with Callback b => [b] | Poll during => during end) events.

(** Every block holds at least one sample. *)
Definition nonempty_blocks (events : list event) : Prop :=
  Forall (fun e => match e with
                   | Callback b => 0 < length b
                   | Poll during => Forall (fun b => 0 < length b) during
                   end) events.
End Recorder.

Arguments Recorder {sample} _ _ _.
Arguments recorder_init {sample}.

(** *** Recordings used as concrete inputs *)

(** One block as the device delivers it ([blocksize=CHUNK_SIZE]), already
    in 16-bit samples. *)
Definition silent_block : list Z := replicate CHUNK_SIZE 0%Z.

(** The loop polls after every block. *)
Definition steady {sample : Type} (blocks : list (list sample)) : list (event (sample:=sample)) :=
  flat_map (fun b => [Callback b; Poll []]) blocks.

(** 469 blocks, the loop polling after each of the first 468, and the stop
    signal seen by the iteration that follows the last block: 480256
    samples, 256 more than one chunk. *)
Definition overshoot_events : list (event (sample:=Z)) :=
  steady (replicate 468 silent_block) ++ [Callback silent_block].

(** A recording of 65.024 s: 1016 blocks of 1024 samples. *)
Definition events_65s : list (event (sample:=Z)) := steady (replicate 1016 silent_block).

(** ** Strings and timestamps *)

Definition nl : string := String (ascii_of_nat 10) EmptyString.

(** [sep.join(parts)]. *)
Fixpoint join (sep : string) (parts : list string) : string :=
  match parts with
  | [] => EmptyString
  | [p] => p
  | p :: rest => p +:+ sep +:+ join sep rest
  end.

(** The characters for which [str.isspace] holds, a character being read
    as the code point of its number: tab to carriage return, the four
    separators, the space, and the next-line and no-break space characters
    (133 and 160). Text with code points from 256 on is beyond the strings
    of the embedding. *)
Definition is_space (c : ascii) : bool :=
  let n := nat_of_ascii c in
  ((9 <=? n) && (n <=? 13)) || ((28 <=? n) && (n <=? 32))
  || (n =? 133) || (n =? 160).

Fixpoint lstrip (s : string) : string :=
  match s with
  | EmptyString => EmptyString
  | String c s' => if is_space c then lstrip s' else s
  end.

Fixpoint rstrip (s : string) : string :=
  match s with
  | EmptyString => EmptyString
  | String c s' =>
      match rstrip s' with
      | EmptyString => if is_space c then EmptyString else String c EmptyString
      | r => String c r
      end
  end.

(** [s.strip()]. *)
Definition strip (s : string) : string := rstrip (lstrip s).

(** Truth value of a string: non-empty. *)
Definition truthy (s : string) : bool :=
  match s with EmptyString => false | String _ _ => true end.

(** The format specification [02d] on an integer: the sign, if any, counts
    towards the width. *)
Definition zero_pad_Z (w : nat) (z : Z) : string :=
  if (z <? 0)%Z
  then "-" +:+ zero_pad (w - 1) (Z.to_nat (- z))
  else zero_pad w (Z.to_nat z).

(** Python's [max(0, x)]: [x] when [x > 0], else the first argument. *)
Definition max0 (x : Q) : Q := if Qlt_le_dec 0 x then x else 0%Q.

(** Lines 49-53. [seconds // 60] is the floor of the quotient and
    [seconds % 60] what is left of [seconds] above that many minutes.

    Times are exact rationals here. On an [int], which is what line 312
    passes in mic mode, Python's [//] and [%] are exact and the code prints
    what this function prints. On a [float] they are rounded: for a negative
    number of tiny magnitude [seconds % 60] rounds up to [60.0], which the
    rationals do not follow. *)
Definition format_timestamp (seconds : Q) : string :=
  let minutes := Qfloor (seconds / 60) in
  let seconds := Qfloor (seconds - 60 * inject_Z minutes) in
  zero_pad_Z 2 minutes +:+ ":" +:+ zero_pad_Z 2 seconds.

(** Lines 55-58: the text that [save_transcript] appends to the file. *)
Definition transcript_line (text : string) (timestamp : Q) : string :=
  "[" +:+ format_timestamp timestamp +:+ "] " +:+ text +:+ nl.

(** ** The transcription service and its replies

    The reply is modelled at the types of the wire contract: a JSON object
    with a [segments] array, or else with a [text] string, or with neither.
    A segment is a dictionary; a key that is absent is [None]. *)

Record raw_segment := RawSegment {
  raw_speaker : option string;
  raw_speaker_id : option Z;
  raw_start : option Q;
  raw_end : option Q;
  raw_text : option string
}.

Inductive reply :=
| Segments (segs : list raw_segment)
| Text (text : string)
| Unrecognized.

Inductive response_body :=
| NotJson                 (* [response.json()] raises *)
| Json (r : reply).

Inductive api_outcome :=
| PostRaises              (* [requests.post] raises: no answer at all *)
| Response (status_code : nat) (body : response_body).

(** The multipart request of lines 81-108: the encoded audio and the form
    fields. *)
Record request := Request {
  req_audio : list Z;
  req_data : list (string * string)
}.

(** ** Encoding a chunk (lines 66-78)

    [AudioSegment.max_possible_amplitude], [AudioSegment.max],
    [AudioSegment.silent] and [AudioSegment.normalize] are pydub's, and no
    code of theirs is among the sources. The first depends on the sample
    width alone; the second is the largest absolute sample value. *)

Definition max_possible_amplitude (sample_width : nat) : Z :=
  (2 ^ Z.of_nat (sample_width * 8) / 2)%Z.

Definition peak (samples : list Z) : Z :=
  foldr (fun x m => Z.max (Z.abs x) m) 0%Z samples.

(** pydub's default frame rate, at which [AudioSegment.silent] builds its
    silence when it is given none, as on line 76. *)
Definition SILENT_FRAME_RATE : N := 11025.

(** [int(frame_rate * (duration / 1000.0))]: the frames of
    [AudioSegment.silent(duration=ms)]. *)
Definition silent_frames (ms : nat) : N := (N.of_nat ms * SILENT_FRAME_RATE / 1000)%N.

(** The frames that [audioop.ratecv] makes of [n] frames when it converts
    from [inrate] to [outrate]: it writes a frame for the first frame it
    reads and from then on [outrate] frames for every [inrate] frames read,
    [(n - 1) * outrate // inrate + 1] in all. *)
Definition ratecv_frames (n inrate outrate : N) : N :=
  (if n =? 0 then 0 else (n - 1) * outrate / inrate + 1)%N.

(** The silence of line 76 as it stands in the audio of line 77: [+] brings
    both of its operands to the higher frame rate, that of the chunk, so the
    silence built at 11025 Hz is converted to 16000 Hz; zeros stay zeros. *)
Definition silent (ms : nat) : list Z :=
  replicate (N.to_nat (ratecv_frames (silent_frames ms) SILENT_FRAME_RATE
                                     (N.of_nat SAMPLE_RATE))) 0%Z.

Section Encoding.
(** [apply_gain p samples]: the samples after the boost that pydub
    computes for a segment whose peak is [p]. *)
Variable apply_gain : Z -> list Z -> list Z.

(** Modelled from the spec: [AudioSegment.normalize] is pydub's and is not
    among the sources. The spec has the pass "peak-normalize if the chunk's
    peak amplitude is nonzero": a chunk whose peak is zero is returned as
    it is, and any other chunk goes through the gain. *)
Definition normalize (samples : list Z) : list Z :=
  if (peak samples =? 0)%Z then samples else apply_gain (peak samples) samples.

(** Lines 72-74. *)
Definition normalized_if_needed (samples : list Z) : list Z :=
  if (0 <? max_possible_amplitude 2)%Z then normalize samples else samples.

(** Lines 66-78: what is exported to the temporary WAV file. *)
Definition encode (audio_data : list Z) : list Z :=
  let silence := silent 100 in
  silence ++ normalized_if_needed audio_data ++ silence.

(** Lines 87-106. *)
Definition form_data (prompt : option string) (speaker_count : nat) : list (string * string) :=
  [("auto_detect_language", "true"); ("diarization", "true");
   ("diarization_speakers", str_of_nat speaker_count); ("timestamp", "true");
   ("model", "whisper-1"); ("temperature", "0.0"); ("best_of", "5");
   ("beam_size", "5"); ("response_format", "verbose_json");
   ("enable_speaker_diarization", "true");
   ("speaker_count", str_of_nat speaker_count); ("speaker_diarization", "true");
   ("diarization_min_speakers", str_of_nat speaker_count);
   ("diarization_max_speakers", str_of_nat speaker_count)]
  ++ match prompt with
     | Some p => if truthy p then [("prompt", p)] else []
     | None => []
     end.

Definition build_request (audio_data : list Z) (prompt : option string)
    (speaker_count : nat) : request :=
  Request (encode audio_data) (form_data prompt speaker_count).
End Encoding.

(** ** Formatting a reply (lines 118-172) *)

(** A transcript segment before it is printed. *)
Record segment := Segment {
  seg_start : Q;
  seg_end : Q;
  seg_speaker : string;
  seg_text : string
}.

(** Line 161. *)
Definition format_segment (s : segment) : string :=
  "[" +:+ format_timestamp (seg_start s) +:+ " - " +:+ format_timestamp (seg_end s)
  +:+ "] " +:+ seg_speaker s +:+ ": " +:+ seg_text s.

(** The local variables of the loop over the segments (lines 119-123). *)
Record loop_state := LoopState {
  formatted_text : list segment;
  first_timestamp : option Q;
  current_speaker : option string;
  speaker_count : nat
}.

Definition loop_init : loop_state := LoopState [] None None 0.

(** Lines 127-142: the speaker of a segment, and the tracker after it. *)
Definition resolve_speaker (seg : raw_segment) (st : loop_state)
    : string * option string * nat :=
  match raw_speaker seg with
  | Some speaker => (speaker, current_speaker st, speaker_count st)
  | None =>
      match raw_speaker_id seg with
      | Some speaker_id =>
          ("Speaker " +:+ str_of_Z (speaker_id + 1), current_speaker st, speaker_count st)
      | None =>
          match current_speaker st with
          | None => ("Speaker 1", Some "Speaker 1", 1)
          | Some _ =>
              let n := speaker_count st mod 2 + 1 in
              let label := "Speaker " +:+ str_of_nat n in
              (label, Some label, n)
          end
      end
  end.

(** Lines 126-162: one iteration. *)
Definition segment_step (st : loop_state) (seg : raw_segment) : loop_state :=
  let '(speaker, current, count) := resolve_speaker seg st in
  let start_time := default 0%Q (raw_start seg) in
  let end_time := default 0%Q (raw_end seg) in
  let first := default start_time (first_timestamp st) in
  let start_time := max0 (start_time - first) in
  let end_time := max0 (end_time - first) in
  let text := strip (default EmptyString (raw_text seg)) in
  LoopState
    (if truthy text
     then formatted_text st ++ [Segment start_time end_time speaker text]
     else formatted_text st)
    (Some first) current count.

Definition segments_loop (segs : list raw_segment) : loop_state :=
  fold_left segment_step segs loop_init.

(** The segments that a segment-list reply puts into the transcript. *)
Definition emitted_segments (segs : list raw_segment) : list segment :=
  formatted_text (segments_loop segs).

(** Lines 118-172. *)
Definition format_reply (r : reply) : string :=
  match r with
  | Segments segs => join nl (format_segment <$> emitted_segments segs)
  | Text text => strip text
  | Unrecognized => EmptyString
  end.

(** ** [transcribe_audio] (lines 60-179)

    The service answers the [n]-th call of a run with [service n request];
    the state threaded through the program is the list of the requests made
    so far. *)

Inductive exn := ConnectionError | JSONDecodeError.

Inductive result (A : Type) :=
| Ok (a : A)
| Raise (e : exn).
Arguments Ok {A} _.
Arguments Raise {A} _.

Section Transcribe.
Variable apply_gain : Z -> list Z -> list Z.
Variable service : nat -> request -> api_outcome.

(** The body of the [try] block. *)
Definition transcribe_body (audio_data : list Z) (prompt : option string)
    (speaker_count : nat) (calls : list request) : result string * list request :=
  let req := build_request apply_gain audio_data prompt speaker_count in
  let calls' := calls ++ [req] in
  match service (length calls) req with
  | PostRaises => (Raise ConnectionError, calls')
  | Response status_code body =>
      if status_code =? 200 then
        match body with
        | NotJson => (Raise JSONDecodeError, calls')
        | Json r => (Ok (format_reply r), calls')
        end
      else (Ok EmptyString, calls')
  end.

(** The [try] block under its [except Exception] clause. *)
Definition transcribe_audio (audio_data : list Z) (prompt : option string)
    (speaker_count : nat) (calls : list request) : string * list request :=
  match transcribe_body audio_data prompt speaker_count calls with
  | (Ok text, calls') => (text, calls')
  | (Raise _, calls') => (EmptyString, calls')
  end.
End Transcribe.

(** ** File names *)

(** [s.endswith(suffix)]. *)
Definition ends_with (suffix s : string) : bool :=
  let n := String.length s in
  let m := String.length suffix in
  (m <=? n) && String.eqb (String.substring (n - m) m s) suffix.

(** [s.split(sep)] for a separator of one character: the pieces between the
    occurrences of [sep]; there is always at least one piece. *)
Fixpoint split_on (sep : ascii) (s : string) : list string :=
  match s with
  | EmptyString => [EmptyString]
  | String c s' =>
      if Ascii.eqb c sep then EmptyString :: split_on sep s'
      else match split_on sep s' with
           | [] => [String c EmptyString]
           | p :: ps => String c p :: ps
           end
  end.

(** [int(s)] on a string: an optional sign and decimal digits, surrounded
    by optional white space. *)
Definition int_of_str (s : string) : option Z :=
  match strip s with
  | String "-"%char r => (fun n => (- Z.of_nat n)%Z) <$> nat_of_str r
  | String "+"%char r => Z.of_nat <$> nat_of_str r
  | r => Z.of_nat <$> nat_of_str r
  end.

(** Line 311: [int(wav_file.split('_')[1].split('.')[0])]; [None] when an
    index is out of range or the piece is not a number. *)
Definition chunk_num_of (wav_file : string) : option Z :=
  p ← split_on "_" wav_file !! 1;
  q ← split_on "." p !! 0;
  int_of_str q.

(** [sorted] on strings: insertion into the order of [String.leb]. *)
Fixpoint insert_sorted (x : string) (l : list string) : list string :=
  match l with
  | [] => [x]
  | y :: l' => if String.leb x y then x :: l else y :: insert_sorted x l'
  end.

Definition sorted (l : list string) : list string := foldr insert_sorted [] l.

(** ** The directory [recorded_chunks] *)

Record file := File {
  file_samples : list Z;
  (** [os.remove] on the file raises (held open by another program, or
      protected). *)
  file_locked : bool
}.

Abbreviation directory := (gmap string file).

(** [os.listdir]. *)
Definition listdir (dir : directory) : list string := (map_to_list dir).*1.

(** Line 203, under the [try] of line 202: the directory afterwards, and
    whether [os.remove] raised. *)
Definition os_remove (name : string) (dir : directory) : option directory :=
  match dir !! name with
  | Some f => if file_locked f then None else Some (delete name dir)
  | None => None
  end.

(** Lines 201-205: one iteration; when [os.remove] raises, the [except]
    clause prints and the loop goes on. *)
Definition remove_step (d : directory) (old_file : string) : directory :=
  if ends_with ".wav" old_file then default d (os_remove old_file d) else d.

(** Lines 200-205, for the names that [os.listdir] returned. *)
Definition remove_old (names : list string) (dir : directory) : directory :=
  fold_left remove_step names dir.

(** Lines 194-205. The directory is [None] when it does not exist. *)
Definition prepare_output_dir (dir : option directory) : directory :=
  match dir with
  | None => ∅
  | Some d => remove_old (listdir d) d
  end.

(** [sf.write(filepath, chunk, SAMPLE_RATE)]. *)
Definition sf_write (dir : directory) (entry : string * list Z) : directory :=
  <[entry.1 := File entry.2 false]> dir.

(** [record_audio_chunk] with its directory: the old chunks are removed
    first, the recording follows. *)
Definition record_to_dir {sample : Type} (to_int16 : sample -> Z)
    (dir : option directory) (events : list (event (sample:=sample))) : directory :=
  fold_left sf_write (written (record_audio_chunk to_int16 events))
            (prepare_output_dir dir).

(** ** The two pipelines *)

Section Pipelines.
Variable apply_gain : Z -> list Z -> list Z.
Variable service : nat -> request -> api_outcome.
(** [clock n]: what [time.time()] returns at its [n]-th reading. *)
Variable clock : nat -> Q.

(** What a run has done so far: the requests made, the readings of the
    clock, and the text of the transcript file. *)
Record world := World {
  calls : list request;
  clock_reads : nat;
  transcript : string
}.

(** *** File mode ([main], lines 380-384) *)

(** [chunk.get_array_of_samples()]: the samples of the milliseconds. The
    audio of a file is taken in whole milliseconds, the unit in which
    [process_audio_file] measures and slices it; what pydub does with the
    samples of a last, partial millisecond is not described. *)
Definition get_array_of_samples (chunk : list (list Z)) : list Z := concat chunk.

Definition file_step (w : world) (chunk : list Z) : world :=
  let '(text, calls') := transcribe_audio apply_gain service chunk None 2 (calls w) in
  if truthy text
  then World calls' (S (clock_reads w))
             (transcript w +:+ transcript_line text (clock (clock_reads w)))
  else World calls' (clock_reads w) (transcript w).

Definition file_loop (chunks : list (list Z)) (w : world) : world :=
  fold_left file_step chunks w.

(** [transcript.txt] is opened for appending: [w] holds what it had. *)
Definition main_file (audio : list (list Z)) (w : world) : world :=
  file_loop (get_array_of_samples <$> process_audio_file audio) w.

(** *** Mic mode ([transcribe_recorded_chunks], lines 280-320) *)

(** Lines 309-313, under the [try] of line 303: the line written for a
    transcript, or nothing when line 311 raises. *)
Definition stamped_line (wav_file text : string) : option string :=
  chunk_num ← chunk_num_of wav_file;
  let timestamp := (chunk_num * 30)%Z in
  Some ("[" +:+ format_timestamp (inject_Z timestamp) +:+ "] " +:+ text +:+ nl).

(** Lines 299-318: one file. Every file of the directory is a WAV file
    that [AudioSegment.from_wav] can read. *)
Definition mic_step (dir : directory) (w : world) (wav_file : string) : world :=
  match dir !! wav_file with
  | None => w
  | Some f =>
      let '(text, calls') :=
        transcribe_audio apply_gain service (file_samples f) None 2 (calls w) in
      if truthy text
      then World calls' (clock_reads w)
                 (transcript w +:+ default EmptyString (stamped_line wav_file text))
      else World calls' (clock_reads w) (transcript w)
  end.

Definition wav_files (dir : directory) : list string :=
  sorted (List.filter (ends_with ".wav") (listdir dir)).

(** The transcript file is opened for writing, so it starts empty; with
    no directory or no WAV file nothing is opened and [w] is returned. *)
Definition transcribe_recorded_chunks (dir : option directory) (w : world) : world :=
  match dir with
  | None => w
  | Some d =>
      match wav_files d with
      | [] => w
      | files => fold_left (mic_step d) files (World (calls w) (clock_reads w) EmptyString)
      end
  end.
End Pipelines.

(** ** Vocabulary of the statements *)

(** The text of a segment as line 156 reads it. *)
Definition stripped_text (seg : raw_segment) : string :=
  strip (default EmptyString (raw_text seg)).

(** The times of a segment as lines 145-146 read them. *)
Definition start_of (seg : raw_segment) : Q := default 0%Q (raw_start seg).
Definition end_of (seg : raw_segment) : Q := default 0%Q (raw_end seg).

(** A segment that names no speaker, neither by [speaker] nor by
    [speaker_id]. *)
Definition unlabeled (seg : raw_segment) : Prop :=
  raw_speaker seg = None /\ raw_speaker_id seg = None.

(** "Speaker 1", "Speaker 2", "Speaker 1", ... by position in the reply. *)
Definition alternating_label (i : nat) : string :=
  if Nat.even i then "Speaker 1" else "Speaker 2".

(** The speakers of the emitted segments when the labels alternate by
    position in the reply, from position [i] on: a segment whose text is
    empty takes its turn and is not emitted. *)
Fixpoint fallback_from (i : nat) (segs : list raw_segment) : list string :=
  match segs with
  | [] => []
  | seg :: rest =>
      (if truthy (stripped_text seg) then [alternating_label i] else [])
      ++ fallback_from (S i) rest
  end.

(** The tracker after [k] unlabeled segments. *)
Definition tracks (k : nat) (st : loop_state) : Prop :=
  match k with
  | O => current_speaker st = None
  | S j => is_Some (current_speaker st)
           /\ speaker_count st = (if Nat.even j then 1 else 2)
  end.

(** The start time of the first segment of a reply, empty or not. *)
Definition first_start (segs : list raw_segment) : Q :=
  match segs with
  | [] => 0%Q
  | seg :: _ => start_of seg
  end.

(** The times of a segment relative to [first], never negative. *)
Definition times_from (first : Q) (seg : raw_segment) : Q * Q :=
  (max0 (start_of seg - first), max0 (end_of seg - first)).

Definition seg_times (s : segment) : Q * Q := (seg_start s, seg_end s).

Definition has_text (seg : raw_segment) : bool := truthy (stripped_text seg).

(** Replies used as concrete inputs. *)
Definition plain (start_time end_time : Q) (text : string) : raw_segment :=
  RawSegment None None (Some start_time) (Some end_time) (Some text).

Definition reply_mixed : list raw_segment :=
  [RawSegment None (Some 0%Z) (Some (1 # 2)) (Some 2%Q) (Some " hello ");
   RawSegment None None (Some 2%Q) (Some 3%Q) (Some "   ");
   RawSegment (Some "B") None (Some 3%Q) (Some (9 # 2)) (Some "bye")].

Definition reply_three : list raw_segment :=
  [plain 0 2 "one"; plain 2 4 "two"; plain 4 6 "three"].

Definition reply_blank_first : list raw_segment :=
  [plain 0 1 "  "; plain 1 2 "hello"].

Definition reply_late : list raw_segment := [plain 2 3 "hi"].

(** An outcome that is a failure of the call: no answer, a status other
    than 200, a body that is not JSON, or a JSON object with neither
    [segments] nor [text]. *)
Definition failed (o : api_outcome) : Prop :=
  match o with
  | PostRaises => True
  | Response status_code body =>
      status_code <> 200 \/ body = NotJson \/ body = Json Unrecognized
  end.

(** What [transcribe_audio] returns for an outcome of its call. *)
Definition text_of_outcome (o : api_outcome) : string :=
  match o with
  | PostRaises => EmptyString
  | Response status_code body =>
      if status_code =? 200
      then match body with
           | Json r => format_reply r
           | NotJson => EmptyString
           end
      else EmptyString
  end.

(** Services used as concrete inputs. *)
Definition always (o : api_outcome) : nat -> request -> api_outcome := fun _ _ => o.

(** Unavailable at the first call, in order from then on. *)
Definition flaky_service : nat -> request -> api_outcome :=
  fun n _ => if n =? 0 then Response 503 NotJson else Response 200 (Json (Text "hello")).

Definition no_gain : Z -> list Z -> list Z := fun _ samples => samples.

(** The request that either pipeline makes for a chunk: no prompt, two
    speakers. *)
Definition chunk_request (apply_gain : Z -> list Z -> list Z) (chunk : list Z) : request :=
  build_request apply_gain chunk None 2.

(** A clock for concrete runs: readings two seconds apart. *)
Definition clock_from (t0 : Z) : nat -> Q := fun n => inject_Z (t0 + 2 * Z.of_nat n).

Definition world_init : world := World [] 0 EmptyString.

(** What the clean-up leaves of an entry of the directory: a file whose
    name ends in [.wav] is gone unless its removal raised. *)
Definition after_cleanup (dir : directory) (name : string) : option file :=
  match dir !! name with
  | Some f => if ends_with ".wav" name && negb (file_locked f) then None else Some f
  | None => None
  end.

(** A directory in which another program holds the first chunk open. *)
Definition dir_locked_chunk : directory :=
  {[ "chunk_001.wav" := File [1%Z; 2%Z] true ]}.

(** The segment records that the answer to a call puts into the
    transcript: those of a segment-list reply; a plain-text reply and a
    failure contribute none. *)
Definition segments_of_outcome (o : api_outcome) : list segment :=
  match o with
  | PostRaises => []
  | Response status_code body =>
      if status_code =? 200
      then match body with
           | Json (Segments segs) => emitted_segments segs
           | _ => []
           end
      else []
  end.





Definition reply_two : list raw_segment := [plain 0 5 "a"; plain 5 10 "b"].

(** Every character of [s] satisfies [p]. *)
Fixpoint all_chars (p : ascii -> bool) (s : string) : bool :=
  match s with
  | EmptyString => true
  | String c s' => p c && all_chars p s'
  end.

Definition is_digit (c : ascii) : bool :=
  let n := nat_of_ascii c in (48 <=? n) && (n <=? 57).

Definition is_not (sep : ascii) (c : ascii) : bool := negb (Ascii.eqb c sep).

Definition says (text : string) : nat -> request -> api_outcome :=
  always (Response 200 (Json (Text text))).

(** ** Further vocabulary: recordings *)

(** A run in which the device delivers the blocks [bs] and the loop then
    runs one iteration during which the blocks [during] arrive. *)
Definition burst {sample : Type} (bs during : list (list sample)) : list (event (sample:=sample)) :=
  (Callback <$> bs) ++ [Poll during].

(** ** Further vocabulary: replies *)

(** The label of a segment when [k] segments without speaker information
    came before it in the reply. *)
Definition label_at (k : nat) (seg : raw_segment) : string :=
  match raw_speaker seg with
  | Some speaker => speaker
  | None =>
      match raw_speaker_id seg with
      | Some speaker_id => "Speaker " +:+ str_of_Z (speaker_id + 1)
      | None => alternating_label k
      end
  end.

Definition is_unlabeled (seg : raw_segment) : bool :=
  match raw_speaker seg, raw_speaker_id seg with
  | None, None => true
  | _, _ => false
  end.

(** The speakers of the emitted segments, [k] segments without speaker
    information having come before. *)
Fixpoint speakers_from (k : nat) (segs : list raw_segment) : list string :=
  match segs with
  | [] => []
  | seg :: rest =>
      (if has_text seg then [label_at k seg] else [])
      ++ speakers_from (if is_unlabeled seg then S k else k) rest
  end.

(** ** The window (transcriber_ui.py) *)

(** [MainWindow.start_transcription], lines 217-223: the prompt handed to
    the worker for the text typed into the prompt field. *)
Definition ui_prompt (typed : string) : option string :=
  let prompt := strip typed in
  if truthy prompt then Some prompt else None.

(** ** Further vocabulary: the pipelines *)

(** The order of [sorted] on file names. *)
Definition name_le (a b : string) : Prop := String.leb a b = true.

(** The requests that [transcribe_recorded_chunks] makes for a directory:
    one for every WAV file, in the order of their names. *)
Definition wav_requests (apply_gain : Z -> list Z -> list Z) (d : directory) : list request :=
  omap (fun name => (fun f => chunk_request apply_gain (file_samples f)) <$> d !! name)
       (wav_files d).

(** The lines that a file run appends for [chunks], its first call being
    the [n]-th of the service and its first reading of the clock the
    [r]-th. *)
Fixpoint file_lines (apply_gain : Z -> list Z -> list Z)
    (service : nat -> request -> api_outcome) (clock : nat -> Q)
    (n r : nat) (chunks : list (list Z)) : list string :=
  match chunks with
  | [] => []
  | chunk :: rest =>
      let text := text_of_outcome (service n (chunk_request apply_gain chunk)) in
      if truthy text
      then transcript_line text (clock r)
           :: file_lines apply_gain service clock (S n) (S r) rest
      else file_lines apply_gain service clock (S n) r rest
  end.

Definition concat_strings (l : list string) : string := foldr String.append EmptyString l.

(** A directory with one chunk of an earlier run, free to be removed. *)
Definition dir_old_chunk : directory :=
  {[ "chunk_001.wav" := File [1%Z; 2%Z] false ]}.

(** A directory with a WAV file that the recorder did not name. *)
Definition dir_take1 : directory :=
  {[ "take1.wav" := File [1%Z; 2%Z] false ]}.

(** ** The display of a transcript ([MainWindow.update_transcript],
    transcriber_ui.py lines 242-280) *)

Definition newline : ascii := ascii_of_nat 10.

(** The index of the first occurrence of [pat] in [s]. *)
Fixpoint find_index (pat s : string) {struct s} : option nat :=
  if String.prefix pat s then Some 0
  else match s with
       | EmptyString => None
       | String _ s' => S <$> find_index pat s'
       end.

(** [s.find(pat)]: -1 when [pat] does not occur. *)
Definition py_find (pat s : string) : Z :=
  match find_index pat s with
  | Some i => Z.of_nat i
  | None => (-1)%Z
  end.

(** [pat in s]. *)
Definition contains (pat s : string) : bool :=
  match find_index pat s with Some _ => true | None => false end.

(** [s[:n]] and [s[n:]] for [n >= 0]. *)
Fixpoint str_take (n : nat) (s : string) : string :=
  match n, s with
  | S n', String c s' => String c (str_take n' s')
  | _, _ => EmptyString
  end.

Fixpoint str_drop (n : nat) (s : string) : string :=
  match n, s with
  | S n', String _ s' => str_drop n' s'
  | _, _ => s
  end.

(** [s.split(sep, 1)] for a separator that is not empty. *)
Definition split_once (sep s : string) : list string :=
  match find_index sep s with
  | Some i => [str_take i s; str_drop (i + String.length sep) s]
  | None => [s]
  end.

(** What the window inserts for one line: the timestamp in gray, the
    speaker in bold and the text, or the line as it is. *)
Inductive shown :=
| Labeled (timestamp speaker text : string)
| Unlabeled (segment : string).

(** Lines 253-275, for one line; [None] when the unpacking of line 260
    raises. *)
Definition show_segment (segment : string) : option shown :=
  if contains ": " segment then
    let timestamp_end := Z.to_nat (py_find "] " segment + 2) in
    let timestamp := str_take timestamp_end segment in
    let rest := str_drop timestamp_end segment in
    match split_once ": " rest with
    | [speaker; text] => Some (Labeled timestamp speaker text)
    | _ => None
    end
  else Some (Unlabeled segment).

(** Lines 246-275: what is inserted, line after line, and whether the loop
    ended by raising. *)
Fixpoint show_segments (segments : list string) : list shown * bool :=
  match segments with
  | [] => ([], false)
  | segment :: rest =>
      match show_segment segment with
      | None => ([], true)
      | Some s => let '(l, raised) := show_segments rest in (s :: l, raised)
      end
  end.

Definition update_transcript (text : string) : list shown * bool :=
  show_segments (split_on newline text).

(** The printed time range of a segment, without the closing bracket. *)
Definition time_range (s : segment) : string :=
  "[" +:+ format_timestamp (seg_start s) +:+ " - " +:+ format_timestamp (seg_end s).

(** What the window shows for a segment. *)
Definition shown_of (s : segment) : shown :=
  Labeled (time_range s +:+ "] ") (seg_speaker s) (seg_text s).

(** A segment whose speaker holds no colon followed by a space and no line
    break, and whose text holds no line break. *)
Definition displayable (s : segment) : Prop :=
  contains ": " (seg_speaker s) = false
  /\ all_chars (is_not newline) (seg_speaker s) = true
  /\ all_chars (is_not newline) (seg_text s) = true.

(** ** The worker ([TranscriptionWorker.run], transcriber_ui.py lines 44-50) *)

Section Worker.
Variable apply_gain : Z -> list Z -> list Z.
Variable service : nat -> request -> api_outcome.

(** The requests made and the transcripts handed to the window. *)
Record worker_state := WorkerState {
  worker_calls : list request;
  progress : list string
}.

Definition worker_step (prompt : option string) (speakers : nat)
    (st : worker_state) (chunk : list Z) : worker_state :=
  let '(text, calls') :=
    transcribe_audio apply_gain service chunk prompt speakers (worker_calls st) in
  WorkerState calls' (if truthy text then progress st ++ [text] else progress st).

Definition worker_file (prompt : option string) (speakers : nat)
    (audio : list (list Z)) (st : worker_state) : worker_state :=
  fold_left (worker_step prompt speakers)
            (get_array_of_samples <$> process_audio_file audio) st.
End Worker.
(** *** Properties of [range] and of the chunk loop *)

Section FileModeFacts.
Context {A : Type}.
Implicit Types (a : list A) (c i n : nat).

Lemma range_loop_done fuel i stop step : stop <= i -> range_loop fuel i stop step = [].
Proof.
  intros H. destruct fuel as [|f]; [done|]. simpl.
  destruct (Nat.ltb_spec i stop); [lia | done].
Qed.

(** More fuel than [stop - i] changes nothing: the loop has ended. *)
Lemma range_loop_fuel fuel fuel' i stop step :
  0 < step -> stop - i <= fuel -> stop - i <= fuel' ->
  range_loop fuel i stop step = range_loop fuel' i stop step.
Proof.
  intros Hs. revert fuel' i.
  induction fuel as [|f IH]; intros fuel' i H1 H2.
  - rewrite (range_loop_done fuel') by lia. done.
  - destruct fuel' as [|f']; [by rewrite range_loop_done by lia|].
    simpl. destruct (Nat.ltb_spec i stop); [|done].
    f_equal. apply IH; lia.
Qed.

Lemma range_loop_step fuel i stop step :
  0 < step -> stop - i <= fuel -> i < stop ->
  range_loop fuel i stop step = i :: range_loop (stop - (i + step)) (i + step) stop step.
Proof.
  intros Hs Hf Hi. destruct fuel as [|f]; [lia|]. simpl.
  destruct (Nat.ltb_spec i stop); [|lia].
  f_equal. apply range_loop_fuel; lia.
Qed.

Lemma slice_length a i j : length (slice a i j) = (j - i) `min` (length a - i).
Proof. unfold slice. by rewrite length_take, length_drop. Qed.

(** The chunks cut from position [i] on, one per loop iteration. *)
Lemma chunk_loop_concat c a fuel i :
  0 < c -> length a - i <= fuel ->
  concat (map (fun k => slice a k (k + c)) (range_loop fuel i (length a) c)) = drop i a.
Proof.
  intros Hc. revert i. induction fuel as [|f IH]; intros i Hf.
  - simpl. rewrite drop_ge by lia. done.
  - simpl. destruct (Nat.ltb_spec i (length a)) as [Hi|Hi].
    + simpl. rewrite IH by lia. unfold slice.
      replace (i + c - i) with c by lia.
      rewrite <- (take_drop c (drop i a)) at 2.
      by rewrite drop_drop.
    + simpl. by rewrite drop_ge by lia.
Qed.

Lemma chunk_loop_count c len fuel i :
  0 < c -> len - i <= fuel ->
  length (range_loop fuel i len c) = (len - i + (c - 1)) / c.
Proof.
  intros Hc. revert i. induction fuel as [|f IH]; intros i Hf.
  - simpl. replace (len - i) with 0 by lia. simpl.
    symmetry. apply Nat.div_small. lia.
  - simpl. destruct (Nat.ltb_spec i len) as [Hi|Hi].
    + simpl. rewrite IH by lia.
      destruct (Nat.le_gt_cases (i + c) len) as [Hle|Hgt].
      * replace (len - i + (c - 1)) with ((len - (i + c) + (c - 1)) + 1 * c) by lia.
        rewrite Nat.div_add by lia. lia.
      * (* the last, shorter chunk *)
        replace (len - (i + c)) with 0 by lia. simpl.
        rewrite (Nat.div_small (c - 1) c) by lia.
        replace (len - i + (c - 1)) with ((len - i - 1) + 1 * c) by lia.
        rewrite Nat.div_add by lia.
        rewrite (Nat.div_small (len - i - 1) c) by lia. done.
    + simpl. replace (len - i) with 0 by lia. simpl.
      symmetry. apply Nat.div_small. lia.
Qed.
End FileModeFacts.

(** *** What a recording run preserves *)

Section RecorderFacts.
Context {sample : Type} (to_int16 : sample -> Z).
Implicit Types (st : recorder (sample:=sample)) (events : list (event (sample:=sample))).

Local Abbreviation pcm := (fmap (M:=list) to_int16).

Lemma emitted_save_chunk chunk st :
  emitted (save_chunk to_int16 chunk st) = emitted st ++ [pcm chunk].
Proof. unfold emitted, save_chunk. simpl. by rewrite fmap_app. Qed.

Lemma accounted_callback indata st :
  accounted to_int16 (callback indata st) = accounted to_int16 st ++ pcm indata.
Proof.
  unfold accounted, callback, set_buffer, emitted. simpl.
  rewrite concat_app. simpl. rewrite app_nil_r, fmap_app. by rewrite app_assoc.
Qed.

Lemma accounted_poll spc st : accounted to_int16 (poll to_int16 spc [] st) = accounted to_int16 st.
Proof.
  destruct st as [buf n w]. unfold poll, accounted, emitted. cbn [audio_buffer].
  destruct buf as [|b bs]; [done|].
  set (audio_data := concat (b :: bs)).
  destruct (Nat.leb_spec spc (length audio_data)) as [Hle|Hlt].
  - cbn [set_buffer save_chunk audio_buffer written chunk_count].
    rewrite fmap_app, concat_app. cbn [fmap list_fmap snd concat].
    rewrite app_nil_r, <- app_assoc. f_equal.
    rewrite <- (take_drop spc audio_data) at 4.
    rewrite fmap_app. f_equal.
    destruct (drop spc audio_data) as [|x r]; [done|].
    cbn. by rewrite app_nil_r.
  - cbn [set_buffer audio_buffer written]. by rewrite app_nil_r.
Qed.

Lemma accounted_loop spc events st :
  undisturbed events ->
  accounted to_int16 (record_loop to_int16 spc events st) = accounted to_int16 st ++ pcm (delivered events).
Proof.
  intros Hu. revert st. induction Hu as [|e events He Hu IH]; intros st.
  - simpl. unfold delivered. simpl. by rewrite app_nil_r.
  - unfold record_loop in *. simpl. rewrite IH.
    unfold delivered. simpl. rewrite concat_app, fmap_app, app_assoc. f_equal.
    destruct e as [indata|during]; simpl.
    + rewrite accounted_callback. by rewrite app_nil_r.
    + subst during. rewrite accounted_poll. simpl. by rewrite app_nil_r.
Qed.

Lemma emitted_finalize st : concat (emitted (finalize to_int16 st)) = accounted to_int16 st.
Proof.
  destruct st as [buf n w]. unfold finalize, accounted. cbn [audio_buffer].
  destruct buf as [|b bs].
  - simpl. by rewrite app_nil_r.
  - rewrite emitted_save_chunk, concat_app. simpl. by rewrite app_nil_r.
Qed.

(** Mic mode, run without interference from the audio thread: the emitted
    chunks, put end to end, are the delivered samples. *)
Lemma record_concat spc events :
  undisturbed events ->
  concat (emitted (record_with to_int16 spc events)) = pcm (delivered events).
Proof.
  intros Hu. unfold record_with. rewrite emitted_finalize, accounted_loop by done.
  done.
Qed.
End RecorderFacts.

(** *** Chunk sizes, chunk names and the end of a recording *)

Section RecorderShape.
Context {sample : Type} (to_int16 : sample -> Z).
Implicit Types (st : recorder (sample:=sample)) (events : list (event (sample:=sample))).

(** Every chunk cut inside the loop has exactly [spc] samples. *)
Lemma loop_cuts_full spc events st :
  Forall (fun c => length c = spc) (emitted st) ->
  Forall (fun c => length c = spc) (emitted (record_loop to_int16 spc events st)).
Proof.
  revert st. induction events as [|e events IH]; intros st Hst; [done|].
  unfold record_loop in *. simpl. apply IH.
  destruct e as [indata|during]; [exact Hst|].
  destruct st as [buf n w]. unfold step, poll. cbn [audio_buffer].
  destruct buf as [|b bs]; [exact Hst|].
  destruct (Nat.leb_spec spc (length (concat (b :: bs)))) as [Hle|Hlt]; [|exact Hst].
  unfold emitted in *. cbn [set_buffer save_chunk written] in *.
  rewrite fmap_app. apply Forall_app. split; [done|].
  constructor; [|done]. cbn [snd]. rewrite length_fmap, length_take. lia.
Qed.

Lemma numbered_save_chunk chunk st :
  numbered st -> numbered (save_chunk to_int16 chunk st).
Proof.
  unfold numbered, save_chunk. simpl. intros H.
  rewrite fmap_app, H. replace (chunk_count st + 1) with (S (chunk_count st)) by lia.
  rewrite seq_S, fmap_app. done.
Qed.

Lemma numbered_step spc st e : numbered st -> numbered (step to_int16 spc st e).
Proof.
  intros H. destruct e as [indata|during]; [done|].
  unfold step, poll. destruct (audio_buffer st); [done|].
  destruct (_ <=? _); [|done].
  by apply (numbered_save_chunk _ st).
Qed.

Lemma numbered_loop spc events st :
  numbered st -> numbered (record_loop to_int16 spc events st).
Proof.
  revert st. induction events as [|e events IH]; intros st H; [done|].
  unfold record_loop in *. simpl. by apply IH, numbered_step.
Qed.

Lemma numbered_record spc events : numbered (record_with to_int16 spc events).
Proof.
  unfold record_with, finalize.
  pose proof (numbered_loop spc events recorder_init eq_refl) as H.
  destruct (audio_buffer _); [done|]. by apply numbered_save_chunk.
Qed.

Lemma written_count_loop spc events st :
  length (written st) = chunk_count st ->
  length (written (record_loop to_int16 spc events st))
  = chunk_count (record_loop to_int16 spc events st).
Proof.
  revert st. induction events as [|e events IH]; intros st H; [done|].
  unfold record_loop in *. simpl. apply IH.
  destruct e as [indata|during]; [done|].
  unfold step, poll. destruct (audio_buffer st); [done|].
  destruct (_ <=? _); [|done].
  cbn. rewrite length_app, H. simpl. lia.
Qed.

(** An iteration that finds less than a chunk in the buffer changes
    nothing. *)
Lemma poll_below spc st :
  length (concat (audio_buffer st)) < spc -> poll to_int16 spc [] st = st.
Proof.
  destruct st as [buf n w]. unfold poll. cbn [audio_buffer]. intros H.
  destruct buf as [|b bs]; [done|].
  destruct (Nat.leb_spec spc (length (concat (b :: bs)))); [lia|].
  unfold set_buffer. cbn. by rewrite app_nil_r.
Qed.

(** While less than a chunk has been delivered, the loop only buffers. *)
Lemma loop_below spc events st :
  undisturbed events ->
  length (concat (audio_buffer st)) + length (delivered events) < spc ->
  record_loop to_int16 spc events st
  = set_buffer (audio_buffer st ++ blocks_of events) st.
Proof.
  intros Hu. revert st. induction Hu as [|e events He Hu IH]; intros st Hlen.
  - simpl. destruct st. unfold set_buffer. simpl. by rewrite app_nil_r.
  - unfold record_loop in *. simpl.
    unfold delivered in Hlen. simpl in Hlen.
    rewrite concat_app, length_app in Hlen.
    destruct e as [indata|during].
    + simpl in *. rewrite app_nil_r in Hlen.
      rewrite IH.
      * destruct st. unfold callback, set_buffer. simpl. by rewrite <- app_assoc.
      * unfold callback, set_buffer. simpl. rewrite concat_app, length_app. simpl.
        rewrite app_nil_r. unfold delivered. lia.
    + subst during. simpl in *. rewrite poll_below by lia. apply IH.
      unfold delivered. lia.
Qed.

(** Stop seen right after the block that completes a chunk: everything
    delivered goes out as one chunk. *)
Lemma stop_before_cut spc events last :
  undisturbed events ->
  length (delivered events) < spc ->
  emitted (record_with to_int16 spc (events ++ [Callback last]))
  = [to_int16 <$> (delivered events ++ last)].
Proof.
  intros Hu Hlen. unfold record_with, record_loop. rewrite fold_left_app.
  fold (record_loop to_int16 spc events recorder_init).
  rewrite loop_below by (simpl; done).
  simpl. unfold callback, finalize. simpl.
  assert (concat (blocks_of events ++ [last]) = delivered events ++ last) as Hc.
  { rewrite concat_app. simpl. by rewrite app_nil_r. }
  destruct (blocks_of events ++ [last]) as [|b bs] eqn:Hb.
  { by destruct (blocks_of events). }
  unfold emitted, save_chunk. cbn [written fmap list_fmap snd app].
  by rewrite Hc.
Qed.
End RecorderShape.

(** *** File mode: count, bound and content of the chunks *)

Section FileModeChunks.
Context {A : Type}.
Implicit Types (a audio : list A) (c : nat).

Lemma ceil_div_split len c :
  0 < c -> (len + (c - 1)) / c = len / c + (if len mod c =? 0 then 0 else 1).
Proof.
  intros Hc.
  pose proof (Nat.div_mod_eq len c) as Hdm.
  pose proof (Nat.mod_upper_bound len c) as Hub.
  destruct (Nat.eqb_spec (len mod c) 0) as [H0|H0].
  - symmetry. apply (Nat.div_unique _ _ _ (c - 1)); lia.
  - symmetry. apply (Nat.div_unique _ _ _ (len mod c - 1)); lia.
Qed.

Lemma chunks_by_count c audio :
  0 < c ->
  length (chunks_by c audio)
  = length audio / c + (if length audio mod c =? 0 then 0 else 1).
Proof.
  intros Hc. unfold chunks_by, range. rewrite length_map.
  rewrite chunk_loop_count by lia. rewrite Nat.sub_0_r. by apply ceil_div_split.
Qed.

Lemma chunks_by_concat c audio : 0 < c -> concat (chunks_by c audio) = audio.
Proof.
  intros Hc. unfold chunks_by, range.
  rewrite (chunk_loop_concat c audio) by lia. done.
Qed.

Lemma chunks_by_bound c audio :
  Forall (fun chunk => length chunk <= c) (chunks_by c audio).
Proof.
  unfold chunks_by. apply Forall_fmap, Forall_forall. intros i _. simpl.
  rewrite slice_length. lia.
Qed.

Lemma range_loop_lt fuel i stop step :
  Forall (fun k => k < stop) (range_loop fuel i stop step).
Proof.
  revert i. induction fuel as [|f IH]; intros i; simpl; [done|].
  destruct (Nat.ltb_spec i stop); [|done]. constructor; [done | apply IH].
Qed.

(** No chunk is empty: the loop stops at the end of the audio. *)
Lemma chunks_by_nonempty c audio :
  0 < c -> Forall (fun chunk => 0 < length chunk) (chunks_by c audio).
Proof.
  intros Hc. unfold chunks_by, range. apply Forall_fmap.
  pose proof (range_loop_lt (length audio - 0) 0 (length audio) c) as Hlt.
  rewrite Forall_forall in *. intros i Hi. specialize (Hlt i Hi).
  simpl. rewrite slice_length. lia.
Qed.

(** The [k]-th chunk is the audio from [k * c] up to [(k + 1) * c]. *)
Lemma range_loop_lookup fuel i stop step k :
  0 < step -> stop - i <= fuel -> i + k * step < stop ->
  range_loop fuel i stop step !! k = Some (i + k * step).
Proof.
  intros Hs. revert i k. induction fuel as [|f IH]; intros i k Hf Hk; [lia|].
  simpl. destruct (Nat.ltb_spec i stop); [|lia].
  destruct k as [|k]; simpl; [f_equal; lia|].
  rewrite IH by lia. f_equal. lia.
Qed.

Lemma chunks_by_lookup c audio k :
  0 < c -> k * c < length audio ->
  chunks_by c audio !! k = Some (slice audio (k * c) (k * c + c)).
Proof.
  intros Hc Hk. unfold chunks_by, range.
  rewrite list_lookup_fmap, (range_loop_lookup _ 0) by lia. done.
Qed.

Lemma chunk_length_ms_pos : 0 < chunk_length_ms.
Proof. apply Nat.ltb_lt. by vm_compute. Qed.

(** File mode, all in one: [process_audio_file] yields [total_chunks]
    chunks, which is the length divided by the chunk length, rounded up;
    no chunk is empty or longer than the chunk length; and put end to
    end the chunks are the audio. *)
Lemma process_audio_file_chunks audio :
  length (process_audio_file audio) = total_chunks audio
  /\ total_chunks audio = (length audio + (chunk_length_ms - 1)) / chunk_length_ms
  /\ Forall (fun chunk => 0 < length chunk <= chunk_length_ms) (process_audio_file audio)
  /\ concat (process_audio_file audio) = audio.
Proof.
  pose proof chunk_length_ms_pos as Hc. unfold process_audio_file, total_chunks.
  split; [by apply chunks_by_count|].
  split; [by rewrite ceil_div_split|].
  split; [|by apply chunks_by_concat].
  pose proof (chunks_by_bound chunk_length_ms audio) as H1.
  pose proof (chunks_by_nonempty chunk_length_ms audio Hc) as H2.
  rewrite Forall_forall in *. intros x Hx. split; [by apply H2 | by apply H1].
Qed.
End FileModeChunks.

(** *** Mic mode: a stop that arrives before the cut *)

Lemma undisturbed_steady {sample : Type} (bs : list (list sample)) :
  undisturbed (steady bs).
Proof. induction bs as [|b bs IH]; simpl; [constructor|]. by repeat constructor. Qed.

Lemma delivered_steady {sample : Type} (bs : list (list sample)) :
  delivered (steady bs) = concat bs.
Proof.
  unfold delivered. induction bs as [|b bs IH]; [done|].
  simpl in *. by rewrite IH.
Qed.

Lemma length_concat_replicate {X : Type} (n : nat) (b : list X) :
  length (concat (replicate n b)) = n * length b.
Proof. induction n as [|n IH]; simpl; [done|]. rewrite length_app, IH. done. Qed.

(** The same run for any block and any number of blocks that stay below
    one chunk. *)
Lemma stop_before_cut_blocks {sample : Type} (to_int16 : sample -> Z) spc n b :
  n * length b < spc ->
  let events := steady (replicate n b) ++ [Callback b] in
  length (delivered events) = (n + 1) * length b
  /\ emitted (record_with to_int16 spc events) = [to_int16 <$> (concat (replicate n b) ++ b)].
Proof.
  intros Hlt events. subst events. split.
  - unfold delivered. rewrite flat_map_app, concat_app, length_app.
    fold (delivered (steady (replicate n b))).
    rewrite delivered_steady, length_concat_replicate. simpl.
    rewrite app_nil_r. lia.
  - rewrite stop_before_cut.
    + by rewrite delivered_steady.
    + apply undisturbed_steady.
    + by rewrite delivered_steady, length_concat_replicate.
Qed.

(** C1 (mic mode, failing input). The device delivers 469 blocks of 1024
    samples and the stop signal is seen by the iteration that follows the
    last one. The 480256 samples call for two chunks of at most 480000
    samples; [record_audio_chunk] writes one chunk, and it is longer than
    the chunk size: the [finally] clause writes whatever the buffer holds
    without cutting it. *)
Theorem record_audio_chunk_overshoot :
  let out := emitted (record_audio_chunk id overshoot_events) in
  length (delivered overshoot_events) = 469 * CHUNK_SIZE
  /\ (469 * CHUNK_SIZE + (samples_per_chunk - 1)) / samples_per_chunk = 2
  /\ length out = 1
  /\ Forall (fun chunk => samples_per_chunk < length chunk) out.
Proof.
  cbv zeta. unfold overshoot_events, record_audio_chunk.
  assert (length silent_block = CHUNK_SIZE) as Hb by apply length_replicate.
  assert (468 * length silent_block < samples_per_chunk) as Hlt.
  { rewrite Hb. apply Nat.ltb_lt. vm_compute. reflexivity. }
  destruct (stop_before_cut_blocks id samples_per_chunk 468 silent_block Hlt) as [Hd He].
  rewrite Hd, He, Hb. clear Hd He Hlt.
  split; [apply Nat.eqb_eq; vm_compute; reflexivity|].
  split; [apply Nat.eqb_eq; vm_compute; reflexivity|].
  split; [reflexivity|].
  constructor; [|constructor].
  rewrite length_fmap, length_app, length_concat_replicate, Hb.
  apply Nat.ltb_lt. vm_compute. reflexivity.
Qed.

(** *** Mic mode: blocks that arrive during a cut, and the regular case *)

Section RecorderRegular.
Context {sample : Type} (to_int16 : sample -> Z).
Implicit Types (st : recorder (sample:=sample)) (events : list (event (sample:=sample))).

(** A block that the callback appends between line 229 and line 250 of an
    iteration that cuts a chunk is cleared with the rest of the buffer: it
    reaches no chunk. *)
Lemma cut_discards_arrivals spc b d :
  0 < spc -> spc <= length b ->
  delivered [Callback b; Poll [d]] = b ++ d
  /\ concat (emitted (record_with to_int16 spc [Callback b; Poll [d]])) = to_int16 <$> b.
Proof.
  intros Hs Hb. split.
  { unfold delivered. simpl. by rewrite app_nil_r. }
  unfold record_with, record_loop. simpl. unfold callback, poll. simpl.
  rewrite app_nil_r. destruct (Nat.leb_spec spc (length b)); [|lia].
  rewrite (emitted_finalize to_int16). unfold accounted, emitted. simpl.
  rewrite app_nil_r. transitivity (to_int16 <$> (take spc b ++ drop spc b)); [|by rewrite take_drop]. rewrite fmap_app. f_equal.
  destruct (drop spc b); [done|]. simpl. by rewrite app_nil_r.
Qed.

Lemma buffer_nonempty_loop spc events st :
  nonempty_blocks events ->
  Forall (fun b => 0 < length b) (audio_buffer st) ->
  Forall (fun b => 0 < length b) (audio_buffer (record_loop to_int16 spc events st)).
Proof.
  intros Hn. revert st. induction Hn as [|e events He Hn IH]; intros st Hst; [done|].
  unfold record_loop in *. simpl. apply IH. clear IH.
  destruct st as [buf n w]. simpl in Hst.
  destruct e as [indata|during]; simpl.
  - apply Forall_app. split; [done|]. by constructor.
  - unfold poll. cbn [audio_buffer]. destruct buf as [|b bs]; [done|].
    destruct (_ <=? _).
    + cbn [set_buffer audio_buffer]. destruct (Nat.ltb_spec 0 (length (drop spc (concat (b :: bs))))).
      * by constructor.
      * constructor.
    + cbn [set_buffer audio_buffer]. apply Forall_app. by split.
Qed.

Lemma length_concat_uniform {X : Type} (n : nat) (l : list (list X)) :
  Forall (fun c => length c = n) l -> length (concat l) = n * length l.
Proof. induction 1 as [|c l Hc _ IH]; simpl; [lia|]. rewrite length_app, IH, Hc. lia. Qed.

(** When the stop signal finds at most one chunk in the buffer, mic mode
    emits the delivered samples in [N / spc] chunks, rounded up, none
    longer than [spc]. *)
Lemma record_count_regular spc events :
  0 < spc -> undisturbed events -> nonempty_blocks events ->
  length (concat (audio_buffer (record_loop to_int16 spc events recorder_init))) <= spc ->
  let out := emitted (record_with to_int16 spc events) in
  length out = (length (delivered events) + (spc - 1)) / spc
  /\ Forall (fun chunk => length chunk <= spc) out.
Proof.
  intros Hs Hu Hn Hres out. subst out. unfold record_with.
  pose proof (accounted_loop to_int16 spc events recorder_init Hu) as Hacc.
  pose proof (loop_cuts_full to_int16 spc events recorder_init (Forall_nil_2 _)) as Hfull.
  pose proof (buffer_nonempty_loop spc events recorder_init Hn (Forall_nil_2 _)) as Hne.
  set (st := record_loop to_int16 spc events recorder_init) in *.
  assert (length (delivered events)
          = spc * length (emitted st) + length (concat (audio_buffer st))) as ->.
  { apply (f_equal length) in Hacc. unfold accounted in Hacc.
    change (concat (emitted recorder_init)) with (@nil Z) in Hacc.
    change (concat (audio_buffer recorder_init)) with (@nil sample) in Hacc.
    rewrite !length_app, !length_fmap, (length_concat_uniform spc) in Hacc by done.
    simpl length in Hacc. lia. }
  clear Hacc.
  destruct st as [buf n w]. unfold finalize, emitted in *.
  cbn [audio_buffer written] in *.
  set (k := length (snd <$> w)).
  destruct buf as [|b bs].
  - cbn [written]. fold k. simpl concat. simpl length. split.
    + replace (spc * k + 0 + (spc - 1)) with ((spc - 1) + k * spc) by lia.
      rewrite Nat.div_add by lia. rewrite Nat.div_small by lia. done.
    + eapply Forall_impl; [exact Hfull|]. simpl. intros; lia.
  - cbn [save_chunk written]. rewrite fmap_app, length_app. fold k.
    cbn [fmap list_fmap snd length].
    assert (0 < length (concat (b :: bs))) as Hpos.
    { inversion Hne; subst. simpl. rewrite length_app. lia. }
    split.
    + replace (spc * k + length (concat (b :: bs)) + (spc - 1))
        with ((length (concat (b :: bs)) - 1) + (k + 1) * spc) by lia.
      rewrite Nat.div_add by lia. rewrite Nat.div_small by lia. done.
    + apply Forall_app. split.
      * eapply Forall_impl; [exact Hfull|]. simpl. intros; lia.
      * constructor; [|done]. by rewrite length_fmap.
Qed.
End RecorderRegular.

(** ** Formatting, file names and sorting on examples *)

Example format_timestamp_65 : format_timestamp 65 = "01:05".
Proof. by vm_compute. Qed.

Example format_timestamp_half : format_timestamp (7 # 2) = "00:03".
Proof. by vm_compute. Qed.

Example format_timestamp_hour : format_timestamp 3725 = "62:05".
Proof. by vm_compute. Qed.

Example strip_example : strip "  hello world " = "hello world".
Proof. by vm_compute. Qed.

Example chunk_filename_7 : chunk_filename 7 = "chunk_007.wav".
Proof. by vm_compute. Qed.

Example chunk_filename_1000 : chunk_filename 1000 = "chunk_1000.wav".
Proof. by vm_compute. Qed.

Example chunk_num_of_7 : chunk_num_of "chunk_007.wav" = Some 7%Z.
Proof. by vm_compute. Qed.

Example chunk_num_of_plain : chunk_num_of "take1.wav" = None.
Proof. by vm_compute. Qed.

(** The names are compared as strings: from the thousandth chunk on, the
    files are no longer transcribed in the order they were recorded. *)
Example sorted_after_999 :
  sorted [chunk_filename 999; chunk_filename 1000; chunk_filename 1001]
  = ["chunk_1000.wav"; "chunk_1001.wav"; "chunk_999.wav"].
Proof. by vm_compute. Qed.

Example sorted_example :
  sorted ["chunk_003.wav"; "chunk_001.wav"; "chunk_002.wav"]
  = ["chunk_001.wav"; "chunk_002.wav"; "chunk_003.wav"].
Proof. by vm_compute. Qed.

(** ** Formatting a reply: texts, times and speakers *)

Section SegmentsLoop.
Implicit Types (st : loop_state) (seg : raw_segment) (segs : list raw_segment).

Lemma truthy_nonempty (s : string) : truthy s = true <-> s <> EmptyString.
Proof. destruct s; simpl; split; (done || congruence). Qed.

Lemma max0_nonneg (x : Q) : (0 <= max0 x)%Q.
Proof. unfold max0. destruct (Qlt_le_dec 0 x); lra. Qed.

Lemma max0_mono (x y : Q) : (x <= y)%Q -> (max0 x <= max0 y)%Q.
Proof. unfold max0. intros H. destruct (Qlt_le_dec 0 x), (Qlt_le_dec 0 y); lra. Qed.

(** The first timestamp is fixed by the first segment of the reply and
    stays. *)
Lemma first_timestamp_step st seg :
  first_timestamp (segment_step st seg)
  = Some (default (start_of seg) (first_timestamp st)).
Proof. unfold segment_step. by destruct (resolve_speaker seg st) as [[? ?] ?]. Qed.

Lemma first_timestamp_loop segs st f :
  first_timestamp st = Some f ->
  first_timestamp (fold_left segment_step segs st) = Some f.
Proof.
  revert st. induction segs as [|seg segs IH]; intros st Hf; [done|].
  simpl. apply IH. by rewrite first_timestamp_step, Hf.
Qed.

(** One iteration appends at most one segment, and which one. *)
Lemma formatted_text_step st seg :
  formatted_text (segment_step st seg)
  = formatted_text st
    ++ (if truthy (stripped_text seg)
        then [Segment (max0 (start_of seg - default (start_of seg) (first_timestamp st)))
                      (max0 (end_of seg - default (start_of seg) (first_timestamp st)))
                      (resolve_speaker seg st).1.1
                      (stripped_text seg)]
        else []).
Proof.
  unfold segment_step, stripped_text, start_of, end_of.
  destruct (resolve_speaker seg st) as [[speaker current] count]. simpl.
  destruct (truthy _); simpl; [done | by rewrite app_nil_r].
Qed.

(** The texts that reach the transcript: the non-empty stripped texts, in
    the order of the reply. *)
Lemma emitted_texts_from segs st :
  seg_text <$> formatted_text (fold_left segment_step segs st)
  = (seg_text <$> formatted_text st) ++ List.filter truthy (stripped_text <$> segs).
Proof.
  revert st. induction segs as [|seg segs IH]; intros st; simpl.
  - by rewrite app_nil_r.
  - rewrite IH, formatted_text_step, fmap_app, <- app_assoc. f_equal.
    by destruct (truthy (stripped_text seg)).
Qed.

Lemma emitted_ordered_from segs st :
  Forall (fun seg => (start_of seg <= end_of seg)%Q) segs ->
  Forall (fun s => (seg_start s <= seg_end s)%Q) (formatted_text st) ->
  Forall (fun s => (seg_start s <= seg_end s)%Q)
         (formatted_text (fold_left segment_step segs st)).
Proof.
  intros Hsegs. revert st. induction Hsegs as [|seg segs Hseg _ IH]; intros st Hst; [done|].
  simpl. apply IH. rewrite formatted_text_step. apply Forall_app. split; [done|].
  destruct (truthy _); [|done]. constructor; [|done]. simpl.
  apply max0_mono. lra.
Qed.
End SegmentsLoop.

(** C7. Every segment that [transcribe_audio] puts into the transcript of a
    segment-list reply has a non-empty text: the texts emitted are exactly
    the stripped texts of the reply that are not empty, the others being
    dropped. And if every segment of the reply has [start <= end], so has
    every emitted segment. *)
Theorem emitted_segments_wellformed (segs : list raw_segment) :
  Forall (fun seg => (start_of seg <= end_of seg)%Q) segs ->
  (seg_text <$> emitted_segments segs) = List.filter truthy (stripped_text <$> segs)
  /\ Forall (fun s => seg_text s <> EmptyString /\ (seg_start s <= seg_end s)%Q)
            (emitted_segments segs).
Proof.
  intros Hsegs. unfold emitted_segments, segments_loop.
  pose proof (emitted_texts_from segs loop_init) as Htexts. simpl in Htexts.
  split; [exact Htexts|].
  pose proof (emitted_ordered_from segs loop_init Hsegs (Forall_nil_2 _)) as Hord.
  assert (Forall (fun t => t <> EmptyString)
            (seg_text <$> formatted_text (fold_left segment_step segs loop_init))) as Hne.
  { rewrite Htexts. apply Forall_forall. intros t Ht.
    apply list_elem_of_In, filter_In in Ht. destruct Ht as [_ Ht].
    by apply truthy_nonempty. }
  rewrite Forall_fmap in Hne.
  rewrite Forall_forall in *. intros s Hs. split; [by apply Hne | by apply Hord].
Qed.

Lemma emitted_segments_wellformed_witness :
  Forall (fun seg => (start_of seg <= end_of seg)%Q) reply_mixed
  /\ (seg_text <$> emitted_segments reply_mixed) = ["hello"; "bye"]
  /\ Forall (fun s => seg_text s <> EmptyString /\ (seg_start s <= seg_end s)%Q)
            (emitted_segments reply_mixed).
Proof.
  assert (Forall (fun seg => (start_of seg <= end_of seg)%Q) reply_mixed) as H.
  { repeat constructor; by vm_compute. }
  split; [exact H|]. exact (emitted_segments_wellformed reply_mixed H).
Defined.

(** ** The fallback labels *)

Section Fallback.
Implicit Types (st : loop_state) (seg : raw_segment) (segs : list raw_segment).

Lemma resolve_speaker_unlabeled k st seg :
  unlabeled seg -> tracks k st ->
  (resolve_speaker seg st).1.1 = alternating_label k
  /\ tracks (S k) (segment_step st seg).
Proof.
  intros [Hs Hid] Hk. unfold segment_step, resolve_speaker. rewrite Hs, Hid.
  destruct k as [|j]; simpl in Hk.
  - rewrite Hk. simpl. split; [done|]. split; [by eexists | done].
  - destruct Hk as [[c Hc] Hn]. rewrite Hc, Hn.
    unfold tracks, alternating_label. cbn [speaker_count current_speaker fst snd].
    rewrite Nat.even_succ, <- Nat.negb_even.
    destruct (Nat.even j); simpl; (split; [done|]); (split; [by eexists | done]).
Qed.

Lemma fallback_speakers_from segs k st :
  Forall unlabeled segs -> tracks k st ->
  seg_speaker <$> formatted_text (fold_left segment_step segs st)
  = (seg_speaker <$> formatted_text st) ++ fallback_from k segs.
Proof.
  intros Hsegs. revert k st. induction Hsegs as [|seg segs Hseg _ IH]; intros k st Hk.
  - simpl. by rewrite app_nil_r.
  - simpl. destruct (resolve_speaker_unlabeled k st seg Hseg Hk) as [Hl Hk'].
    rewrite (IH (S k)) by done. rewrite formatted_text_step, fmap_app, <- app_assoc.
    f_equal. f_equal. destruct (truthy (stripped_text seg)); [|done].
    simpl. by rewrite Hl.
Qed.

Lemma fallback_from_all_text segs k :
  Forall (fun seg => has_text seg = true) segs ->
  fallback_from k segs = alternating_label <$> seq k (length segs).
Proof.
  intros H. revert k. induction H as [|seg segs Hseg _ IH]; intros k; [done|].
  simpl. unfold has_text in Hseg. rewrite Hseg, IH. done.
Qed.
End Fallback.

(** C4, as the code has it. In a reply whose segments carry neither
    [speaker] nor [speaker_id], the first segment of the reply, empty or
    not, takes "Speaker 1" and every following segment the other label than
    the segment before it; a segment with empty text takes its turn all the
    same and is then dropped. When no text is empty the emitted labels are
    therefore "Speaker 1", "Speaker 2", "Speaker 1", ... *)
Theorem fallback_alternates (segs : list raw_segment) :
  Forall unlabeled segs ->
  (seg_speaker <$> emitted_segments segs) = fallback_from 0 segs
  /\ (Forall (fun seg => has_text seg = true) segs ->
      (seg_speaker <$> emitted_segments segs) = alternating_label <$> seq 0 (length segs)).
Proof.
  intros Hsegs.
  assert ((seg_speaker <$> emitted_segments segs) = fallback_from 0 segs) as H.
  { unfold emitted_segments, segments_loop.
    by rewrite (fallback_speakers_from segs 0 loop_init). }
  split; [exact H|]. intros Htext. rewrite H. by apply fallback_from_all_text.
Qed.

(** Three non-empty segments without speaker information. *)
Lemma fallback_alternates_witness :
  Forall unlabeled reply_three
  /\ Forall (fun seg => has_text seg = true) reply_three
  /\ (seg_speaker <$> emitted_segments reply_three) = ["Speaker 1"; "Speaker 2"; "Speaker 1"].
Proof.
  assert (Forall unlabeled reply_three) as H by (repeat constructor).
  assert (Forall (fun seg => has_text seg = true) reply_three) as Ht
    by (repeat constructor).
  split; [exact H|]. split; [exact Ht|].
  exact (proj2 (fallback_alternates reply_three H) Ht).
Defined.

(** C4 as stated fails: the reply's first segment is blank, and the first
    segment with text is labelled "Speaker 2". *)
Lemma fallback_blank_first :
  Forall unlabeled reply_blank_first
  /\ (seg_text <$> emitted_segments reply_blank_first) = ["hello"]
  /\ (seg_speaker <$> emitted_segments reply_blank_first) = ["Speaker 2"].
Proof. split; [repeat constructor|]. split; by vm_compute. Qed.

(** ** Times relative to the first segment *)

Lemma emitted_times_from (segs : list raw_segment) (st : loop_state) (f : Q) :
  first_timestamp st = Some f ->
  seg_times <$> formatted_text (fold_left segment_step segs st)
  = (seg_times <$> formatted_text st) ++ (times_from f <$> List.filter has_text segs).
Proof.
  revert st. induction segs as [|seg segs IH]; intros st Hf; simpl.
  - by rewrite app_nil_r.
  - rewrite (IH (segment_step st seg)) by (by rewrite first_timestamp_step, Hf).
    rewrite formatted_text_step, Hf, fmap_app, <- app_assoc. f_equal.
    unfold has_text. by destruct (truthy (stripped_text seg)).
Qed.

Lemma length_silent_100 : length (silent 100) = 1598.
Proof. unfold silent. rewrite length_replicate. by vm_compute. Qed.

Lemma silent_zeros (ms : nat) : Forall (eq 0%Z) (silent ms).
Proof. unfold silent. apply Forall_replicate. done. Qed.

Lemma emitted_times (segs : list raw_segment) :
  (seg_times <$> emitted_segments segs)
  = (times_from (first_start segs) <$> List.filter has_text segs).
Proof.
  unfold emitted_segments, segments_loop. destruct segs as [|seg segs]; [done|].
  cbn [fold_left first_start].
  rewrite (emitted_times_from segs (segment_step loop_init seg) (start_of seg))
    by (by rewrite first_timestamp_step).
  rewrite formatted_text_step. cbn [List.filter]. unfold has_text.
  destruct (truthy (stripped_text seg)); done.
Qed.

(** C5, as the code has it. The audio sent is the chunk between two
    stretches of silence, pydub's 100 ms of silence, which stand in the
    audio as 1598 samples of zero each. From every time of the reply
    [transcribe_audio] subtracts the start time of the reply's first
    segment, not the length of the padding, and replaces a negative
    difference by zero. *)
Theorem times_relative_to_first (apply_gain : Z -> list Z -> list Z)
    (audio_data : list Z) (prompt : option string) (speaker_count : nat)
    (segs : list raw_segment) :
  req_audio (build_request apply_gain audio_data prompt speaker_count)
  = silent 100 ++ normalized_if_needed apply_gain audio_data ++ silent 100
  /\ length (silent 100) = 1598
  /\ Forall (eq 0%Z) (silent 100)
  /\ (seg_times <$> emitted_segments segs)
     = (times_from (first_start segs) <$> List.filter has_text segs)
  /\ Forall (fun t => (0 <= t.1)%Q /\ (0 <= t.2)%Q)
            (times_from (first_start segs) <$> List.filter has_text segs).
Proof.
  split; [done|]. split; [exact length_silent_100|].
  split; [apply silent_zeros|]. split; [apply emitted_times|].
  apply Forall_fmap, Forall_forall. intros seg _. unfold times_from. cbn [fst snd].
  split; apply max0_nonneg.
Qed.

(** C5 as stated fails: a reply whose only segment runs from 2 s to 3 s is
    emitted as running from 0 s to 1 s, not from 1.9 s to 2.9 s. *)
Lemma times_not_padding :
  (seg_times <$> emitted_segments reply_late) = [(0%Q, 1%Q)]
  /\ (0 < 2 - (1 # 10))%Q.
Proof. split; by vm_compute. Qed.

(** ** Normalization *)

Lemma max_possible_amplitude_16bit : max_possible_amplitude 2 = 32768%Z.
Proof. by vm_compute. Qed.

Lemma peak_nonneg (samples : list Z) : (0 <= peak samples)%Z.
Proof. induction samples as [|x l IH]; simpl; lia. Qed.

Lemma peak_zero (samples : list Z) :
  (peak samples =? 0)%Z = forallb (Z.eqb 0) samples.
Proof.
  induction samples as [|x l IH]; [done|].
  cbn [peak foldr forallb]. fold (peak l). rewrite <- IH.
  pose proof (peak_nonneg l).
  destruct (Z.eqb_spec 0 x) as [<-|Hx]; cbn [andb].
  - destruct (Z.eqb_spec (peak l) 0) as [->|Hp]; [done|]. apply Z.eqb_neq. lia.
  - apply Z.eqb_neq. lia.
Qed.

Lemma normalized_if_needed_peak (apply_gain : Z -> list Z -> list Z) (samples : list Z) :
  normalized_if_needed apply_gain samples
  = (if forallb (Z.eqb 0) samples then samples else apply_gain (peak samples) samples).
Proof.
  unfold normalized_if_needed, normalize.
  rewrite max_possible_amplitude_16bit, peak_zero. done.
Qed.

(** ** One call, no exception *)

Section TranscribeFacts.
Variable apply_gain : Z -> list Z -> list Z.
Variable service : nat -> request -> api_outcome.

(** [transcribe_audio] makes exactly one call, and what it returns depends
    on the outcome of that call alone. *)
Lemma transcribe_audio_outcome audio_data prompt speaker_count calls :
  let req := build_request apply_gain audio_data prompt speaker_count in
  transcribe_audio apply_gain service audio_data prompt speaker_count calls
  = (text_of_outcome (service (length calls) req), calls ++ [req]).
Proof.
  cbv zeta. unfold transcribe_audio, transcribe_body, text_of_outcome.
  destruct (service _ _) as [|status_code body]; [done|].
  destruct (status_code =? 200); [by destruct body | done].
Qed.

Lemma text_of_failed (o : api_outcome) : failed o -> text_of_outcome o = EmptyString.
Proof.
  destruct o as [|status_code body]; [done|]. simpl.
  destruct (Nat.eqb_spec status_code 200) as [->|Hne]; [|done].
  intros [Hne | [-> | ->]]; done.
Qed.
End TranscribeFacts.

(** C8. The request that [transcribe_audio] makes for a chunk carries,
    between the two stretches of silence, the chunk unchanged when its peak
    amplitude is zero and the chunk after the gain pass when it is not; the
    peak is zero exactly when every sample is zero. The guard of line 73
    holds for every chunk of 16-bit audio, so the pass is entered for every
    chunk: the test on the peak is the one inside [normalize]. *)
Theorem normalized_iff_peak_nonzero (apply_gain : Z -> list Z -> list Z)
    (service : nat -> request -> api_outcome) (samples : list Z)
    (prompt : option string) (speaker_count : nat) (calls : list request) :
  let sent := (transcribe_audio apply_gain service samples prompt speaker_count calls).2 in
  (0 <? max_possible_amplitude 2)%Z = true
  /\ (peak samples =? 0)%Z = forallb (Z.eqb 0) samples
  /\ exists req,
       sent = calls ++ [req]
       /\ req_audio req
          = silent 100
            ++ (if (peak samples =? 0)%Z then samples
                else apply_gain (peak samples) samples)
            ++ silent 100.
Proof.
  cbv zeta. split; [by rewrite max_possible_amplitude_16bit|].
  split; [apply peak_zero|].
  rewrite transcribe_audio_outcome. cbn [snd]. eexists. split; [done|].
  unfold build_request, encode. cbn [req_audio].
  by rewrite normalized_if_needed_peak, <- peak_zero.
Qed.

(** C9. [transcribe_audio] returns a pair of a string and the call log for
    every chunk and every outcome of the call; the exceptions of the body
    ([requests.post] raising, the body of the answer not being JSON) stop
    at its handler. On every failure the string is empty, which is also
    what a well-formed reply without any segment gives. *)
Theorem transcribe_audio_never_raises (apply_gain : Z -> list Z -> list Z)
    (service : nat -> request -> api_outcome)
    (audio_data : list Z) (prompt : option string) (speaker_count : nat)
    (calls : list request) :
  let req := build_request apply_gain audio_data prompt speaker_count in
  failed (service (length calls) req) ->
  transcribe_audio apply_gain service audio_data prompt speaker_count calls
  = (EmptyString, calls ++ [req])
  /\ transcribe_audio apply_gain (always (Response 200 (Json (Segments []))))
       audio_data prompt speaker_count calls
     = (EmptyString, calls ++ [req])
  /\ (forall e calls',
        transcribe_body apply_gain service audio_data prompt speaker_count calls
        = (Raise e, calls') ->
        transcribe_audio apply_gain service audio_data prompt speaker_count calls
        = (EmptyString, calls')).
Proof.
  intros req Hfail. split; [|split].
  - rewrite transcribe_audio_outcome. fold req. by rewrite text_of_failed.
  - by rewrite transcribe_audio_outcome.
  - intros e calls' Hbody. unfold transcribe_audio. by rewrite Hbody.
Qed.

Lemma transcribe_audio_never_raises_witness :
  failed (always PostRaises 0 (build_request no_gain [] None 2))
  /\ transcribe_audio no_gain (always PostRaises) [] None 2 []
     = (EmptyString, [build_request no_gain [] None 2]).
Proof.
  assert (failed (always PostRaises 0 (build_request no_gain [] None 2))) as H by exact I.
  split; [exact H|].
  exact (proj1 (transcribe_audio_never_raises no_gain (always PostRaises) [] None 2 [] H)).
Defined.

(** ** The pipelines call the service once per chunk *)

Section PipelineCalls.
Variable apply_gain : Z -> list Z -> list Z.
Variable service : nat -> request -> api_outcome.
Variable clock : nat -> Q.

Lemma file_step_calls (w : world) (chunk : list Z) :
  calls (file_step apply_gain service clock w chunk)
  = calls w ++ [chunk_request apply_gain chunk].
Proof.
  unfold file_step. rewrite transcribe_audio_outcome. by destruct (truthy _).
Qed.

Lemma file_loop_calls (chunks : list (list Z)) (w : world) :
  calls (file_loop apply_gain service clock chunks w)
  = calls w ++ (chunk_request apply_gain <$> chunks).
Proof.
  revert w. induction chunks as [|chunk chunks IH]; intros w.
  - simpl. by rewrite app_nil_r.
  - unfold file_loop in *. simpl. rewrite IH, file_step_calls, <- app_assoc. done.
Qed.
End PipelineCalls.

(** C6, as the code has it. [transcribe_audio] makes exactly one call for a
    chunk, whatever its outcome, and never a second one: when the call
    raises or is answered with a status other than 200 it returns the empty
    string at once. The chunk is then skipped and the loop goes on: a file
    run makes one call per chunk. *)
Theorem one_call_per_chunk (apply_gain : Z -> list Z -> list Z)
    (service : nat -> request -> api_outcome) (clock : nat -> Q)
    (audio_data : list Z) (prompt : option string) (speaker_count : nat)
    (calls0 : list request) (chunks : list (list Z)) (w : world) :
  let req := build_request apply_gain audio_data prompt speaker_count in
  transcribe_audio apply_gain service audio_data prompt speaker_count calls0
  = (text_of_outcome (service (length calls0) req), calls0 ++ [req])
  /\ text_of_outcome PostRaises = EmptyString
  /\ (forall status_code body,
        (status_code =? 200) = false ->
        text_of_outcome (Response status_code body) = EmptyString)
  /\ calls (file_loop apply_gain service clock chunks w)
     = calls w ++ (chunk_request apply_gain <$> chunks).
Proof.
  cbv zeta. split; [apply transcribe_audio_outcome|]. split; [done|].
  split; [|apply file_loop_calls].
  intros status_code body H. simpl. by rewrite H.
Qed.

(** C6 as stated fails: the service is unavailable at the first call and
    would answer the second. [transcribe_audio] makes the first call only
    and returns the empty string. *)
Lemma no_retry_when_unavailable :
  flaky_service 0 (chunk_request no_gain [7%Z]) = Response 503 NotJson
  /\ flaky_service 1 (chunk_request no_gain [7%Z]) = Response 200 (Json (Text "hello"))
  /\ transcribe_audio no_gain flaky_service [7%Z] None 2 []
     = (EmptyString, [chunk_request no_gain [7%Z]]).
Proof. split; [done|]. split; [done|]. by vm_compute. Qed.

(** The failed chunk is skipped and the next one is transcribed. *)
Example file_loop_skips_failed_chunk :
  transcript (file_loop no_gain flaky_service (clock_from 0) [[7%Z]; [8%Z]] world_init)
  = "[00:00] hello" +:+ nl.
Proof. by vm_compute. Qed.

(** ** Cleaning the output directory *)

Section Cleanup.
Implicit Types (d : directory) (name : string) (names : list string).

Lemma remove_step_other d old_file name :
  name <> old_file -> remove_step d old_file !! name = d !! name.
Proof.
  intros Hne. unfold remove_step, os_remove.
  destruct (ends_with ".wav" old_file); [|done].
  destruct (d !! old_file) as [f|]; [|done].
  destruct (file_locked f); [done|]. simpl. by rewrite lookup_delete_ne.
Qed.

Lemma remove_step_same d name : remove_step d name !! name = after_cleanup d name.
Proof.
  unfold remove_step, os_remove, after_cleanup.
  destruct (ends_with ".wav" name); simpl.
  - destruct (d !! name) as [f|] eqn:Hf; simpl; [|done].
    destruct (file_locked f); simpl; [done|]. by rewrite lookup_delete_eq.
  - by destruct (d !! name).
Qed.

Lemma after_cleanup_ext d d' name : d !! name = d' !! name -> after_cleanup d name = after_cleanup d' name.
Proof. unfold after_cleanup. by intros ->. Qed.

Lemma remove_old_lookup names d name :
  NoDup names ->
  remove_old names d !! name
  = if decide (name ∈ names) then after_cleanup d name else d !! name.
Proof.
  intros Hnd. revert d. induction Hnd as [|n ns Hn Hnd IH]; intros d.
  - simpl. destruct (decide (name ∈ @nil string)) as [Hin|_]; [by apply elem_of_nil in Hin | done].
  - unfold remove_old in *. simpl. rewrite IH.
    destruct (decide (name = n)) as [->|Hne].
    + destruct (decide (n ∈ ns)); [done|].
      destruct (decide (n ∈ n :: ns)) as [_|Hout]; [|by destruct Hout; left].
      apply remove_step_same.
    + rewrite (after_cleanup_ext (remove_step d n) d) by (by apply remove_step_other).
      rewrite remove_step_other by done.
      destruct (decide (name ∈ ns)) as [Hin|Hout];
        destruct (decide (name ∈ n :: ns)) as [Hin'|Hout']; try done.
      * destruct Hout'. by right.
      * apply elem_of_cons in Hin' as [?|?]; done.
Qed.

Lemma listdir_spec d name : name ∈ listdir d <-> is_Some (d !! name).
Proof.
  unfold listdir. rewrite list_elem_of_fmap. split.
  - intros [[k f] [-> Hin]]. apply elem_of_map_to_list in Hin. by eexists.
  - intros [f Hf]. exists (name, f). split; [done|]. by apply elem_of_map_to_list.
Qed.

Lemma prepare_output_dir_lookup d name :
  prepare_output_dir (Some d) !! name = after_cleanup d name.
Proof.
  unfold prepare_output_dir. rewrite remove_old_lookup by apply NoDup_fst_map_to_list.
  destruct (decide (name ∈ listdir d)) as [Hin|Hout]; [done|].
  unfold after_cleanup. destruct (d !! name) as [f|] eqn:Hf; [|done].
  destruct Hout. apply listdir_spec. by eexists.
Qed.
End Cleanup.

(** C10, as the code has it. Before it records anything,
    [record_audio_chunk] goes through the directory and removes every
    entry whose name ends in [.wav], except those whose removal raises:
    these are reported and stay. Every other entry is left as it was; a
    directory that did not exist is created empty. The files of the new
    recording are written into what this leaves. *)
Theorem old_chunks_removed (dir : directory) (name : string) :
  prepare_output_dir (Some dir) !! name = after_cleanup dir name
  /\ prepare_output_dir None = ∅
  /\ (forall sample (to_int16 : sample -> Z) events,
        record_to_dir to_int16 (Some dir) events
        = fold_left sf_write (written (record_audio_chunk to_int16 events))
                    (prepare_output_dir (Some dir))).
Proof. split; [apply prepare_output_dir_lookup|]. split; done. Qed.

(** A chunk of an earlier run whose removal succeeds is gone before the
    recording starts. *)
Lemma unlocked_chunk_removed (dir : directory) (name : string) (f : file) :
  dir !! name = Some f -> ends_with ".wav" name = true -> file_locked f = false ->
  prepare_output_dir (Some dir) !! name = None.
Proof.
  intros Hf Hwav Hl. rewrite prepare_output_dir_lookup. unfold after_cleanup.
  by rewrite Hf, Hwav, Hl.
Qed.

(** C10 as stated fails: a chunk that another program holds open survives
    the clean-up. *)
Lemma locked_chunk_survives :
  prepare_output_dir (Some dir_locked_chunk) !! "chunk_001.wav"
  = Some (File [1%Z; 2%Z] true).
Proof. by vm_compute. Qed.

(** ** The transcript only grows *)

Lemma string_app_assoc (s t u : string) : (s +:+ t) +:+ u = s +:+ (t +:+ u).
Proof.
  induction s as [|c s IH]; [done|].
  change (String c ((s +:+ t) +:+ u) = String c (s +:+ (t +:+ u))). by rewrite IH.
Qed.

Lemma string_app_nil_r (s : string) : s +:+ EmptyString = s.
Proof.
  induction s as [|c s IH]; [done|].
  change (String c (s +:+ EmptyString) = String c s). by rewrite IH.
Qed.




Section AppendOnly.
Variable apply_gain : Z -> list Z -> list Z.
Variable service : nat -> request -> api_outcome.
Variable clock : nat -> Q.




End AppendOnly.







(** What a segment-list reply puts into the transcript is the printed form
    of its segment records. *)
Lemma text_of_segments_reply (segs : list raw_segment) :
  text_of_outcome (Response 200 (Json (Segments segs)))
  = join nl (format_segment <$> segments_of_outcome (Response 200 (Json (Segments segs)))).
Proof. done. Qed.


(** ** File names and their numbers *)

Section FileNames.
Implicit Types (s t : string) (c sep : ascii) (p : ascii -> bool).

Lemma all_chars_app p s t : all_chars p (s +:+ t) = all_chars p s && all_chars p t.
Proof.
  induction s as [|c s IH]; [done|].
  change (p c && all_chars p (s +:+ t) = p c && all_chars p s && all_chars p t).
  rewrite IH. by destruct (p c).
Qed.

Lemma all_chars_impl p (q : ascii -> bool) s :
  (forall c, p c = true -> q c = true) -> all_chars p s = true -> all_chars q s = true.
Proof.
  intros Hpq. induction s as [|c s IH]; [done|]. simpl.
  intros [Hc Hs]%andb_true_iff. by rewrite (Hpq c Hc), IH.
Qed.

Lemma all_chars_zeros n : all_chars is_digit (zeros n) = true.
Proof. induction n as [|n IH]; [done|]. simpl. by rewrite IH. Qed.

Lemma all_chars_uint (d : Decimal.uint) : all_chars is_digit (NilEmpty.string_of_uint d) = true.
Proof. induction d; [done|..]; simpl; rewrite IHd; by vm_compute. Qed.

Lemma all_chars_str_of_nat n : all_chars is_digit (str_of_nat n) = true.
Proof.
  unfold str_of_nat, NilZero.string_of_uint.
  destruct (Nat.to_uint n) eqn:Hd; [done|..]; rewrite <- Hd; apply all_chars_uint.
Qed.

(** A digit is none of the characters that the file name is cut at, and
    no white space. *)
Lemma digit_classes c :
  is_digit c = true ->
  is_not "_" c = true /\ is_not "." c = true /\ is_space c = false
  /\ Ascii.eqb c "-" = false /\ Ascii.eqb c "+" = false.
Proof.
  destruct c as [[|] [|] [|] [|] [|] [|] [|] [|]]; vm_compute; intros H;
    first [discriminate H | repeat split].
Qed.

(** A string without the separator is one piece. *)
Lemma split_on_none sep s : all_chars (is_not sep) s = true -> split_on sep s = [s].
Proof.
  induction s as [|c s IH]; [done|]. simpl. unfold is_not at 1.
  intros [Hc Hs]%andb_true_iff. apply negb_true_iff in Hc. by rewrite Hc, IH.
Qed.

(** The first piece ends at the first separator. *)
Lemma split_on_first sep s t :
  all_chars (is_not sep) s = true ->
  split_on sep (s +:+ String sep t) = s :: split_on sep t.
Proof.
  induction s as [|c s IH]; intros H.
  - change (split_on sep (String sep t) = EmptyString :: split_on sep t).
    simpl. by rewrite Ascii.eqb_refl.
  - simpl in H. apply andb_true_iff in H as [Hc Hs]. apply negb_true_iff in Hc.
    change (split_on sep (String c (s +:+ String sep t)) = String c s :: split_on sep t).
    simpl. by rewrite Hc, IH.
Qed.

Lemma lstrip_id c s : is_space c = false -> lstrip (String c s) = String c s.
Proof. intros H. simpl. by rewrite H. Qed.

Lemma rstrip_id s : all_chars (fun c => negb (is_space c)) s = true -> rstrip s = s.
Proof.
  induction s as [|c s IH]; [done|]. simpl.
  intros [Hc Hs]%andb_true_iff. apply negb_true_iff in Hc. rewrite IH by done.
  destruct s; [by rewrite Hc | done].
Qed.

Lemma strip_digits s : all_chars is_digit s = true -> strip s = s.
Proof.
  intros H. unfold strip.
  assert (all_chars (fun c => negb (is_space c)) s = true) as Hns.
  { eapply all_chars_impl; [|exact H]. intros c Hc.
    destruct (digit_classes c Hc) as (_ & _ & Hsp & _). by rewrite Hsp. }
  destruct s as [|c s]; [done|].
  rewrite lstrip_id; [by apply rstrip_id|].
  simpl in Hns. apply andb_true_iff in Hns as [Hc _]. by apply negb_true_iff in Hc.
Qed.

(** Leading zeros do not change the number read. *)
Lemma uint_of_zeros k s :
  Nat.of_uint <$> NilEmpty.uint_of_string (zeros k +:+ s)
  = Nat.of_uint <$> NilEmpty.uint_of_string s.
Proof.
  induction k as [|k IH]; [done|].
  change (Nat.of_uint <$> uint_of_char "0" (NilEmpty.uint_of_string (zeros k +:+ s))
          = Nat.of_uint <$> NilEmpty.uint_of_string s).
  rewrite <- IH. by destruct (NilEmpty.uint_of_string (zeros k +:+ s)).
Qed.

Lemma nat_of_str_of_nat n : Nat.of_uint <$> NilEmpty.uint_of_string (str_of_nat n) = Some n.
Proof.
  unfold str_of_nat, NilZero.string_of_uint.
  pose proof (DecimalNat.Unsigned.of_to n) as Hn.
  destruct (Nat.to_uint n) eqn:Hd.
  - simpl in *. by rewrite <- Hn.
  - rewrite <- Hd, NilEmpty.usu, Hd. simpl. by rewrite Hn.
  - rewrite <- Hd, NilEmpty.usu, Hd. simpl. by rewrite Hn.
  - rewrite <- Hd, NilEmpty.usu, Hd. simpl. by rewrite Hn.
  - rewrite <- Hd, NilEmpty.usu, Hd. simpl. by rewrite Hn.
  - rewrite <- Hd, NilEmpty.usu, Hd. simpl. by rewrite Hn.
  - rewrite <- Hd, NilEmpty.usu, Hd. simpl. by rewrite Hn.
  - rewrite <- Hd, NilEmpty.usu, Hd. simpl. by rewrite Hn.
  - rewrite <- Hd, NilEmpty.usu, Hd. simpl. by rewrite Hn.
  - rewrite <- Hd, NilEmpty.usu, Hd. simpl. by rewrite Hn.
  - rewrite <- Hd, NilEmpty.usu, Hd. simpl. by rewrite Hn.
Qed.

Lemma str_of_nat_nonempty n : exists c s, str_of_nat n = String c s.
Proof.
  unfold str_of_nat, NilZero.string_of_uint.
  destruct (Nat.to_uint n); simpl; eauto.
Qed.

Lemma nat_of_zero_pad w n : nat_of_str (zero_pad w n) = Some n.
Proof.
  unfold zero_pad, nat_of_str.
  assert (Nat.of_uint <$> NilZero.uint_of_string (zeros (w - String.length (str_of_nat n))
                                                  +:+ str_of_nat n) = Some n) as H.
  { destruct (str_of_nat_nonempty n) as (c & s & Hs).
    unfold NilZero.uint_of_string.
    destruct (zeros _ +:+ str_of_nat n) eqn:Hz.
    - rewrite Hs in Hz. by destruct (zeros _).
    - rewrite <- Hz, uint_of_zeros. apply nat_of_str_of_nat. }
  destruct (zeros _ +:+ str_of_nat n) eqn:Hz; [|exact H].
  destruct (str_of_nat_nonempty n) as (c & s & Hs). rewrite Hs in Hz.
  by destruct (zeros _).
Qed.

Lemma all_chars_zero_pad w n : all_chars is_digit (zero_pad w n) = true.
Proof.
  unfold zero_pad. by rewrite all_chars_app, all_chars_zeros, all_chars_str_of_nat.
Qed.

Lemma int_of_digits s n :
  all_chars is_digit s = true -> nat_of_str s = Some n -> int_of_str s = Some (Z.of_nat n).
Proof.
  intros Hd Hn. unfold int_of_str. rewrite strip_digits by done.
  destruct s as [|c r]; [done|].
  simpl in Hd. apply andb_true_iff in Hd as [Hc _].
  destruct (digit_classes c Hc) as (_ & _ & _ & Hminus & Hplus).
  destruct c as [[|] [|] [|] [|] [|] [|] [|] [|]];
    first [discriminate Hminus | discriminate Hplus | by rewrite Hn].
Qed.

(** The number read back from the name of a chunk file is the number the
    recorder gave it. *)
Lemma chunk_num_of_filename n : chunk_num_of (chunk_filename n) = Some (Z.of_nat n).
Proof.
  unfold chunk_num_of, chunk_filename.
  pose proof (all_chars_zero_pad 3 n) as Hd.
  assert (all_chars (is_not "_") (zero_pad 3 n +:+ ".wav") = true) as H1.
  { rewrite all_chars_app. apply andb_true_iff. split; [|done].
    eapply all_chars_impl; [|exact Hd]. intros c Hc. by destruct (digit_classes c Hc). }
  assert (all_chars (is_not ".") (zero_pad 3 n) = true) as H2.
  { eapply all_chars_impl; [|exact Hd]. intros c Hc.
    by destruct (digit_classes c Hc) as (_ & ? & _). }
  change ("chunk_" +:+ zero_pad 3 n +:+ ".wav")
    with ("chunk" +:+ String "_" (zero_pad 3 n +:+ ".wav")).
  rewrite split_on_first by done. rewrite split_on_none by done.
  cbn [lookup list_lookup mbind option_bind].
  change (zero_pad 3 n +:+ ".wav") with (zero_pad 3 n +:+ String "." "wav").
  rewrite split_on_first by done.
  cbn [lookup list_lookup mbind option_bind].
  apply int_of_digits; [done | apply nat_of_zero_pad].
Qed.
End FileNames.

(** Mic mode stamps the transcript of the file numbered [n] with [n * 30]
    seconds; the recorder numbers its files from 1, so the chunk with
    0-based index [k] is stamped with [(k + 1) * 30]. *)
Lemma stamped_line_of_chunk (n : nat) (text : string) :
  stamped_line (chunk_filename n) text
  = Some ("[" +:+ format_timestamp (inject_Z (Z.of_nat n * 30)) +:+ "] " +:+ text +:+ nl).
Proof. unfold stamped_line. by rewrite chunk_num_of_filename. Qed.

Lemma mic_stamp_of_kth {sample : Type} (to_int16 : sample -> Z)
    (events : list (event (sample:=sample))) (k : nat) (entry : string * list Z)
    (text : string) :
  written (record_audio_chunk to_int16 events) !! k = Some entry ->
  stamped_line entry.1 text
  = Some ("[" +:+ format_timestamp (inject_Z (Z.of_nat (k + 1) * 30)) +:+ "] "
          +:+ text +:+ nl).
Proof.
  intros Hk.
  pose proof (numbered_record to_int16 samples_per_chunk events) as Hn.
  unfold numbered in Hn. fold (record_audio_chunk to_int16 events) in Hn.
  assert ((fst <$> written (record_audio_chunk to_int16 events)) !! k = Some entry.1) as Hname.
  { by rewrite list_lookup_fmap, Hk. }
  rewrite Hn, list_lookup_fmap in Hname.
  destruct (seq 1 _ !! k) as [n|] eqn:Hseq; [|done].
  apply lookup_seq in Hseq as [-> _]. simpl in Hname.
  injection Hname as <-. replace (k + 1) with (1 + k) by lia.
  apply stamped_line_of_chunk.
Qed.

(** ** File mode: the stamps are readings of the clock *)

Section FileStamps.
Variable apply_gain : Z -> list Z -> list Z.
Variable service : nat -> request -> api_outcome.
Variable clock : nat -> Q.

(** What [main] appends for a chunk: its transcript, if not empty, under
    the time of day at which it is saved. The index of the chunk plays no
    part. *)
Lemma file_step_transcript (w : world) (chunk : list Z) :
  let text := text_of_outcome (service (length (calls w)) (chunk_request apply_gain chunk)) in
  transcript (file_step apply_gain service clock w chunk)
  = transcript w
    +:+ (if truthy text then transcript_line text (clock (clock_reads w)) else EmptyString).
Proof.
  cbv zeta. unfold file_step. rewrite transcribe_audio_outcome.
  fold (chunk_request apply_gain chunk).
  destruct (truthy _); simpl; [done | by rewrite string_app_nil_r].
Qed.
End FileStamps.

(** Two full chunks and a rest. *)
Lemma chunks_by_two_and_rest {A : Type} (c r : nat) (audio : list A) :
  0 < r < c -> length audio = 2 * c + r ->
  (length <$> chunks_by c audio) = [c; c; r].
Proof.
  intros Hr Hlen.
  assert (0 < c) as Hpos by lia.
  pose proof (chunks_by_count c audio Hpos) as Hcount.
  rewrite Hlen in Hcount.
  replace ((2 * c + r) / c) with 2 in Hcount
    by (apply (Nat.div_unique _ _ _ r); lia).
  replace ((2 * c + r) mod c) with r in Hcount
    by (apply (Nat.mod_unique _ _ 2); lia).
  destruct (Nat.eqb_spec r 0) as [?|_]; [lia|].
  pose proof (chunks_by_lookup c audio 0 Hpos ltac:(lia)) as H0.
  pose proof (chunks_by_lookup c audio 1 Hpos ltac:(lia)) as H1.
  pose proof (chunks_by_lookup c audio 2 Hpos ltac:(lia)) as H2.
  destruct (chunks_by c audio) as [|c0 [|c1 [|c2 [|c3 rest]]]];
    try (cbn [length] in Hcount; lia).
  cbn [lookup list_lookup] in H0, H1, H2.
  injection H0 as ->. injection H1 as ->. injection H2 as ->.
  cbn [fmap list_fmap]. rewrite !slice_length, Hlen.
  repeat f_equal; lia.
Qed.

(** A file of 65 s is cut into chunks of 30 s, 30 s and 5 s. *)
Lemma file_65s_chunks {A : Type} (audio : list A) :
  length audio = 65 * 1000 ->
  (length <$> process_audio_file audio) = [30 * 1000; 30 * 1000; 5 * 1000].
Proof.
  intros Hlen. unfold process_audio_file.
  assert (chunk_length_ms = 30 * 1000) as Hc by reflexivity.
  rewrite <- Hc. apply chunks_by_two_and_rest; rewrite Hc; lia.
Qed.


(** ** Mic mode when the loop keeps up with the device *)

Section Steady.
Context {sample : Type} (to_int16 : sample -> Z).
Implicit Types (st : recorder (sample:=sample)) (blocks : list (list sample)).

(** Polling after every block, the loop never leaves a full chunk in the
    buffer. *)
Lemma steady_residual spc blocks st :
  0 < spc ->
  Forall (fun b => length b <= spc) blocks ->
  length (concat (audio_buffer st)) < spc ->
  length (concat (audio_buffer (record_loop to_int16 spc (steady blocks) st))) < spc.
Proof.
  intros Hs Hb. revert st. induction Hb as [|b blocks Hlen _ IH]; intros st Hst; [done|].
  unfold record_loop, steady in *. cbn [flat_map app fold_left]. apply IH. clear IH.
  destruct st as [buf n w]. cbn [audio_buffer] in Hst.
  change (length (concat (audio_buffer
            (poll to_int16 spc [] (Recorder (buf ++ [b]) n w)))) < spc).
  unfold poll. cbn [audio_buffer].
  assert (length (concat (buf ++ [b])) = length (concat buf) + length b) as Hcat.
  { rewrite concat_app, length_app. simpl. by rewrite app_nil_r. }
  destruct (buf ++ [b]) as [|x xs] eqn:Hbuf; [by destruct buf|].
  set (data := concat (x :: xs)) in *.
  destruct (Nat.leb_spec spc (length data)) as [Hle|Hlt].
  - cbn [set_buffer audio_buffer].
    destruct (Nat.ltb_spec 0 (length (drop spc data))) as [Hr|Hr].
    + cbn [concat]. rewrite app_nil_r, length_drop. lia.
    + cbn [concat length]. lia.
  - cbn [set_buffer audio_buffer]. rewrite app_nil_r. fold data. lia.
Qed.

Lemma nonempty_blocks_steady blocks :
  Forall (fun b => 0 < length b) blocks -> nonempty_blocks (sample:=sample) (steady blocks).
Proof.
  induction 1 as [|b blocks Hb _ IH]; [constructor|].
  unfold steady, nonempty_blocks in *. cbn [flat_map app].
  constructor; [done|]. constructor; [constructor | done].
Qed.

(** Mic mode, the loop polling after every block: the chunks are as many as
    the samples divided by the chunk size, rounded up, none is longer than
    the chunk size, and put end to end they are the samples delivered. *)
Lemma steady_recording spc blocks :
  0 < spc ->
  Forall (fun b => 0 < length b <= spc) blocks ->
  let out := emitted (record_with to_int16 spc (steady blocks)) in
  length out = (length (concat blocks) + (spc - 1)) / spc
  /\ Forall (fun chunk => length chunk <= spc) out
  /\ concat out = (to_int16 <$> concat blocks).
Proof.
  intros Hs Hb out. subst out.
  assert (Forall (fun b => length b <= spc) blocks) as Hle
    by (eapply Forall_impl; [exact Hb | simpl; intros; lia]).
  assert (Forall (fun b => 0 < length b) blocks) as Hpos
    by (eapply Forall_impl; [exact Hb | simpl; intros; lia]).
  pose proof (steady_residual spc blocks recorder_init Hs Hle ltac:(simpl; lia)) as Hres.
  destruct (record_count_regular to_int16 spc (steady blocks) Hs
              (undisturbed_steady blocks) (nonempty_blocks_steady blocks Hpos)
              ltac:(lia)) as [Hcount Hbound].
  rewrite delivered_steady in Hcount.
  split; [exact Hcount|]. split; [exact Hbound|].
  rewrite record_concat by apply undisturbed_steady. by rewrite delivered_steady.
Qed.

(** All chunks but the one written at the end are full. *)
Lemma record_with_shape spc (events : list (event (sample:=sample))) :
  exists full last,
    emitted (record_with to_int16 spc events) = full ++ last
    /\ Forall (fun chunk => length chunk = spc) full
    /\ length last <= 1.
Proof.
  unfold record_with.
  pose proof (loop_cuts_full to_int16 spc events recorder_init (Forall_nil_2 _)) as Hfull.
  destruct (record_loop to_int16 spc events recorder_init) as [buf n w].
  unfold finalize. cbn [audio_buffer]. destruct buf as [|b bs].
  - exists (emitted (Recorder (sample:=sample) [] n w)), []. rewrite app_nil_r.
    split; [reflexivity|]. split; [exact Hfull | simpl; lia].
  - eexists _, _. rewrite emitted_save_chunk.
    split; [reflexivity|]. split; [exact Hfull | simpl; lia].
Qed.
End Steady.

Lemma written_count_record {sample : Type} (to_int16 : sample -> Z) spc
    (events : list (event (sample:=sample))) :
  length (written (record_with to_int16 spc events))
  = chunk_count (record_with to_int16 spc events).
Proof.
  unfold record_with.
  pose proof (written_count_loop to_int16 spc events recorder_init eq_refl) as H.
  destruct (record_loop to_int16 spc events recorder_init) as [buf n w].
  unfold finalize. cbn [audio_buffer written chunk_count] in *.
  destruct buf; [done|]. cbn. rewrite length_app, H. simpl. lia.
Qed.

(** ** A recording of 65 seconds *)

Lemma samples_per_chunk_value : samples_per_chunk = 480 * 1000.
Proof. apply Nat.eqb_eq. vm_compute. reflexivity. Qed.

Lemma chunk_size_value : length silent_block = 1024.
Proof. unfold silent_block. by rewrite length_replicate. Qed.

(** 1016 blocks of 1024 samples against a chunk size of 480000: three
    chunks of 30 s, 30 s and 5.024 s, in files numbered 1, 2, 3. *)
Lemma steady_1016_blocks {sample : Type} (to_int16 : sample -> Z) (spc : nat)
    (b : list sample) :
  spc = 480 * 1000 -> length b = 1024 ->
  let run := record_with to_int16 spc (steady (replicate 1016 b)) in
  (fst <$> written run) = chunk_filename <$> [1; 2; 3]
  /\ ((fun chunk => Z.of_nat (length chunk)) <$> emitted run) = [480000; 480000; 80384]%Z.
Proof.
  intros Hspc Hb run.
  set (blocks := replicate 1016 b) in *.
  assert (length (concat blocks) = 1016 * 1024) as Hn.
  { unfold blocks. rewrite length_concat_replicate, Hb. reflexivity. }
  assert (Forall (fun b => 0 < length b <= spc) blocks) as Hblocks.
  { unfold blocks. apply Forall_replicate. rewrite Hb. lia. }
  destruct (steady_recording to_int16 spc blocks ltac:(lia) Hblocks) as (Hcount & _ & Hcat).
  fold run in Hcount, Hcat. rewrite Hn in Hcount.
  assert ((1016 * 1024 + (spc - 1)) / spc = 3) as H3.
  { symmetry. apply (Nat.div_unique _ _ _ (1016 * 1024 + (spc - 1) - 3 * spc)); lia. }
  rewrite H3 in Hcount. clear H3.
  apply (f_equal length) in Hcat. rewrite length_fmap, Hn in Hcat.
  pose proof (numbered_record to_int16 spc (steady blocks)) as Hnames.
  pose proof (written_count_record to_int16 spc (steady blocks)) as Hwc.
  destruct (record_with_shape to_int16 spc (steady blocks))
    as (full & last & Hout & Hfull & Hlast).
  fold run in Hnames, Hwc, Hout.
  assert (length (written run) = 3) as Hlw.
  { rewrite <- Hcount. unfold emitted. by rewrite length_fmap. }
  unfold numbered in Hnames. rewrite <- Hwc, Hlw in Hnames.
  split; [exact Hnames|].
  rewrite Hout in *. rewrite length_app in Hcount. rewrite concat_app, length_app in Hcat.
  destruct last as [|c [|? ?]]; [| |cbn [length] in Hlast; lia].
  - rewrite (length_concat_uniform spc) in Hcat by done. cbn [length] in *. lia.
  - destruct full as [|a1 [|a2 [|? ?]]]; try (cbn [length] in Hcount; lia).
    apply Forall_cons in Hfull as [Ha1 Hfull]. apply Forall_cons in Hfull as [Ha2 _].
    cbn [concat] in Hcat. rewrite !length_app in Hcat. cbn [length] in Hcat.
    cbn [app fmap list_fmap]. repeat f_equal; lia.
Qed.

Lemma recording_65s :
  let run := record_audio_chunk id events_65s in
  (fst <$> written run) = ["chunk_001.wav"; "chunk_002.wav"; "chunk_003.wav"]
  /\ ((fun chunk => Z.of_nat (length chunk)) <$> emitted run) = [480000; 480000; 80384]%Z.
Proof.
  exact (steady_1016_blocks id samples_per_chunk silent_block
           samples_per_chunk_value chunk_size_value).
Qed.

(** Whatever the three files hold, their transcripts are stamped 00:30,
    01:00 and 01:30. *)
Lemma three_chunks_transcript (c1 c2 c3 : list Z) :
  transcript (transcribe_recorded_chunks no_gain (says "hi")
    (Some (fold_left sf_write
             [("chunk_001.wav", c1); ("chunk_002.wav", c2); ("chunk_003.wav", c3)] ∅))
    world_init)
  = "[00:30] hi" +:+ nl +:+ "[01:00] hi" +:+ nl +:+ "[01:30] hi" +:+ nl.
Proof. vm_compute. reflexivity. Qed.

(** C2 (mic mode, failing input). A recording of 65 s leaves three chunks
    of 30 s, 30 s and 5 s in files numbered from 1, and their transcripts
    are stamped with the file number times 30: 00:30, 01:00 and 01:30,
    where the start offsets of the chunks are 0 s, 30 s and 60 s. *)
Theorem mic_stamps_one_chunk_late :
  let run := record_audio_chunk id events_65s in
  (fst <$> written run) = ["chunk_001.wav"; "chunk_002.wav"; "chunk_003.wav"]
  /\ ((fun chunk => Z.of_nat (length chunk)) <$> emitted run) = [480000; 480000; 80384]%Z
  /\ transcript (transcribe_recorded_chunks no_gain (says "hi")
                   (Some (record_to_dir id None events_65s)) world_init)
     = "[00:30] hi" +:+ nl +:+ "[01:00] hi" +:+ nl +:+ "[01:30] hi" +:+ nl.
Proof.
  cbv zeta. destruct recording_65s as [Hnames Hlens].
  split; [exact Hnames|]. split; [exact Hlens|].
  unfold record_to_dir. change (prepare_output_dir None) with (∅ : directory).
  remember (written (record_audio_chunk id events_65s)) as w eqn:Hw. clear Hw Hlens.
  destruct w as [|[n1 c1] [|[n2 c2] [|[n3 c3] [|? ?]]]]; try discriminate Hnames.
  cbn [fmap list_fmap fst] in Hnames.
  injection Hnames as -> -> ->. apply three_chunks_transcript.
Qed.

(** * Further properties of the code *)

(** ** File mode: where each chunk lies *)

(** X1. The chunk with 0-based index [k] that [process_audio_file] yields is
    the audio from millisecond [k * 30000] up to [k * 30000 + 30000], cut
    short at the end of the audio; there is no chunk for an index whose
    start lies at or beyond the end. *)
Theorem file_chunk_position {A : Type} (audio : list A) (k : nat) :
  process_audio_file audio !! k
  = if k * chunk_length_ms <? length audio
    then Some (slice audio (k * chunk_length_ms) (k * chunk_length_ms + chunk_length_ms))
    else None.
Proof.
  pose proof chunk_length_ms_pos as Hc. unfold process_audio_file.
  set (c := chunk_length_ms) in *.
  destruct (Nat.ltb_spec (k * c) (length audio)) as [Hlt|Hge].
  - by apply chunks_by_lookup.
  - apply lookup_ge_None. rewrite chunks_by_count by done.
    rewrite <- ceil_div_split by done.
    transitivity ((k * c + (c - 1)) / c).
    + apply Nat.Div0.div_le_mono. lia.
    + rewrite Nat.add_comm, Nat.div_add by lia. rewrite Nat.div_small by lia. lia.
Qed.

(** ** Mic mode: what a recording writes *)

(** X2. When no block arrives while an iteration of the loop is cutting a
    chunk, the chunks that [record_audio_chunk] writes, put end to end, are
    the samples that the device delivered, converted to 16 bits, in order
    and each once; and every chunk but the one written at the end holds
    exactly [samples_per_chunk] samples. *)
Theorem mic_chunks_are_the_samples {sample : Type} (to_int16 : sample -> Z)
    (events : list (event (sample:=sample))) :
  undisturbed events ->
  concat (emitted (record_audio_chunk to_int16 events)) = (to_int16 <$> delivered events)
  /\ exists full last,
       emitted (record_audio_chunk to_int16 events) = full ++ last
       /\ Forall (fun chunk => length chunk = samples_per_chunk) full
       /\ length last <= 1.
Proof.
  intros Hu. split.
  - by apply record_concat.
  - apply record_with_shape.
Qed.

Lemma mic_chunks_are_the_samples_witness :
  undisturbed [Callback [1%Z; 2%Z]; Poll []; Callback [3%Z]]
  /\ concat (emitted (record_audio_chunk id [Callback [1%Z; 2%Z]; Poll []; Callback [3%Z]]))
     = (id <$> delivered [Callback [1%Z; 2%Z]; Poll []; Callback [3%Z]]).
Proof.
  assert (undisturbed [Callback [1%Z; 2%Z]; Poll []; Callback [3%Z]]) as H
    by (repeat constructor).
  split; [exact H|].
  exact (proj1 (mic_chunks_are_the_samples id _ H)).
Defined.

Lemma chunk_filename_inj (m n : nat) : chunk_filename m = chunk_filename n -> m = n.
Proof.
  intros H. apply (f_equal chunk_num_of) in H.
  rewrite !chunk_num_of_filename in H. injection H. lia.
Qed.

Lemma ends_with_app (a suffix : string) : ends_with suffix (a +:+ suffix) = true.
Proof.
  unfold ends_with.
  assert (String.length (a +:+ suffix) = String.length a + String.length suffix) as Hlen.
  { induction a as [|c a IH]; [done|].
    change (S (String.length (a +:+ suffix)) = S (String.length a + String.length suffix)).
    by rewrite IH. }
  rewrite Hlen.
  replace (String.length a + String.length suffix - String.length suffix)
    with (String.length a) by lia.
  apply andb_true_iff. split; [apply Nat.leb_le; lia|].
  apply String.eqb_eq.
  induction a as [|c a IH].
  - change (String.substring 0 (String.length suffix) suffix = suffix).
    clear Hlen. induction suffix as [|c s IH]; [done|]. simpl. by rewrite IH.
  - change (String.substring (String.length a) (String.length suffix) (a +:+ suffix) = suffix).
    apply IH. clear IH Hlen. induction a as [|c' a IH]; [done|].
    change (S (String.length (a +:+ suffix)) = S (String.length a + String.length suffix)).
    by rewrite IH.
Qed.

(** X3. The names that the recorder gives its files and the numbers that
    the transcription reads from them agree: the name of chunk [n] ends in
    [.wav], so that [transcribe_recorded_chunks] picks the file up, and
    line 311 reads [n] back from it, for every [n], also beyond 999 where
    the number outgrows its three digits. *)
Theorem chunk_name_round_trip (n : nat) :
  chunk_num_of (chunk_filename n) = Some (Z.of_nat n)
  /\ ends_with ".wav" (chunk_filename n) = true.
Proof.
  split; [apply chunk_num_of_filename|].
  unfold chunk_filename.
  rewrite <- string_app_assoc. apply ends_with_app.
Qed.

(** X4. The files of one recording are numbered 1, 2, 3, ... in the order
    in which they are written, and no two of them have the same name: no
    chunk overwrites another chunk of the same run. *)
Theorem chunk_files_distinct {sample : Type} (to_int16 : sample -> Z)
    (events : list (event (sample:=sample))) :
  let run := record_audio_chunk to_int16 events in
  (fst <$> written run) = chunk_filename <$> seq 1 (length (written run))
  /\ NoDup (fst <$> written run).
Proof.
  cbv zeta. unfold record_audio_chunk.
  pose proof (numbered_record to_int16 samples_per_chunk events) as Hn.
  pose proof (written_count_record to_int16 samples_per_chunk events) as Hc.
  unfold numbered in Hn. rewrite <- Hc in Hn.
  split; [exact Hn|]. rewrite Hn.
  apply NoDup_fmap_2; [|apply NoDup_seq].
  intros m n. apply chunk_filename_inj.
Qed.

Lemma sf_write_fold_other (entries : list (string * list Z)) (d : directory) (name : string) :
  name ∉ entries.*1 -> fold_left sf_write entries d !! name = d !! name.
Proof.
  revert d. induction entries as [|[n c] entries IH]; intros d Hout; [done|].
  simpl. rewrite IH by (intros Hin; apply Hout; by right).
  unfold sf_write. simpl. apply lookup_insert_ne.
  intros ->. apply Hout. by left.
Qed.

Lemma sf_write_fold_lookup (entries : list (string * list Z)) (d : directory)
    (k : nat) (name : string) (chunk : list Z) :
  NoDup entries.*1 -> entries !! k = Some (name, chunk) ->
  fold_left sf_write entries d !! name = Some (File chunk false).
Proof.
  revert d k. induction entries as [|[n c] entries IH]; intros d k Hnd Hk; [done|].
  apply NoDup_cons in Hnd as [Hn Hnd]. destruct k as [|k].
  - injection Hk as -> ->. simpl. rewrite sf_write_fold_other by done.
    unfold sf_write. simpl. apply lookup_insert_eq.
  - simpl in Hk. simpl. by eapply IH.
Qed.

(** X5. Every chunk that a recording wrote can be read back from the
    directory under its name with the samples it was written with
    ([sf.write] being taken to succeed): no later chunk of the run
    replaces it. *)
Theorem recorded_chunk_read_back {sample : Type} (to_int16 : sample -> Z)
    (dir : option directory) (events : list (event (sample:=sample)))
    (k : nat) (name : string) (chunk : list Z) :
  written (record_audio_chunk to_int16 events) !! k = Some (name, chunk) ->
  record_to_dir to_int16 dir events !! name = Some (File chunk false).
Proof.
  intros Hk. unfold record_to_dir. eapply sf_write_fold_lookup; [|exact Hk].
  pose proof (numbered_record to_int16 samples_per_chunk events) as Hn.
  unfold numbered in Hn. fold (record_audio_chunk to_int16 events) in Hn.
  rewrite Hn. apply NoDup_fmap_2; [|apply NoDup_seq].
  intros m n. apply chunk_filename_inj.
Qed.

Lemma recorded_chunk_read_back_witness :
  written (record_audio_chunk id [Callback [5%Z; 6%Z]]) !! 0
  = Some ("chunk_001.wav", [5%Z; 6%Z])
  /\ record_to_dir id None [Callback [5%Z; 6%Z]] !! "chunk_001.wav"
     = Some (File [5%Z; 6%Z] false).
Proof.
  assert (written (record_audio_chunk id [Callback [5%Z; 6%Z]]) !! 0
          = Some ("chunk_001.wav", [5%Z; 6%Z])) as H by reflexivity.
  split; [exact H|].
  exact (recorded_chunk_read_back id None _ 0 _ _ H).
Defined.

(** ** Mic mode: the loop and the audio thread *)

(** X6. When the loop runs an iteration after every block and no block is
    longer than a chunk, [record_audio_chunk] writes as many chunks as the
    number of samples divided by [samples_per_chunk], rounded up; none is
    longer than [samples_per_chunk]; and end to end they are the samples
    delivered. *)
Theorem steady_polling_chunks {sample : Type} (to_int16 : sample -> Z)
    (blocks : list (list sample)) :
  Forall (fun b => 0 < length b <= samples_per_chunk) blocks ->
  let out := emitted (record_audio_chunk to_int16 (steady blocks)) in
  length out = (length (concat blocks) + (samples_per_chunk - 1)) / samples_per_chunk
  /\ Forall (fun chunk => length chunk <= samples_per_chunk) out
  /\ concat out = (to_int16 <$> concat blocks).
Proof.
  intros Hb. apply steady_recording; [|exact Hb].
  rewrite samples_per_chunk_value. lia.
Qed.

Lemma steady_polling_chunks_witness :
  Forall (fun b => 0 < length b <= samples_per_chunk) [[1%Z; 2%Z]; [3%Z]]
  /\ concat (emitted (record_audio_chunk id (steady [[1%Z; 2%Z]; [3%Z]])))
     = (id <$> concat [[1%Z; 2%Z]; [3%Z]]).
Proof.
  assert (Forall (fun b => 0 < length b <= samples_per_chunk) [[1%Z; 2%Z]; [3%Z]]) as H.
  { rewrite samples_per_chunk_value.
    apply Forall_cons. split; [cbn [length]; lia|].
    apply Forall_cons. split; [cbn [length]; lia|]. apply Forall_nil_2. }
  split; [exact H|].
  exact (proj2 (proj2 (steady_polling_chunks id _ H))).
Defined.

Lemma loop_callbacks {sample : Type} (to_int16 : sample -> Z) (spc : nat)
    (bs : list (list sample)) (st : recorder (sample:=sample)) :
  record_loop to_int16 spc (Callback <$> bs) st = set_buffer (audio_buffer st ++ bs) st.
Proof.
  revert st. induction bs as [|b bs IH]; intros st.
  - destruct st. unfold set_buffer. simpl. by rewrite app_nil_r.
  - unfold record_loop in *. simpl. rewrite IH.
    destruct st. unfold callback, set_buffer. simpl. by rewrite <- app_assoc.
Qed.

Lemma blocks_of_callbacks {sample : Type} (bs : list (list sample)) :
  blocks_of (Callback <$> bs) = bs.
Proof. induction bs as [|b bs IH]; [done|]. cbn. by f_equal. Qed.

Lemma delivered_burst {sample : Type} (bs during : list (list sample)) :
  delivered (burst bs during) = concat bs ++ concat during.
Proof.
  unfold delivered, burst. rewrite flat_map_app, concat_app.
  fold (blocks_of (Callback <$> bs)). rewrite blocks_of_callbacks.
  cbn. by rewrite app_nil_r.
Qed.

(** An iteration that cuts a chunk accounts for what the buffer held, not
    for what arrives meanwhile. *)
Lemma accounted_poll_cut {sample : Type} (to_int16 : sample -> Z) (spc : nat)
    (during : list (list sample)) (st : recorder (sample:=sample)) :
  0 < spc -> spc <= length (concat (audio_buffer st)) ->
  accounted to_int16 (poll to_int16 spc during st) = accounted to_int16 st.
Proof.
  intros Hpos Hlen.
  destruct st as [buf n w]. unfold poll, accounted, emitted. cbn [audio_buffer] in *.
  destruct buf as [|b bs]; [simpl in Hlen; lia|].
  set (audio_data := concat (b :: bs)) in *.
  destruct (Nat.leb_spec spc (length audio_data)) as [_|Hlt]; [|lia].
  cbn [set_buffer save_chunk audio_buffer written chunk_count].
  rewrite fmap_app, concat_app. cbn [fmap list_fmap snd concat].
  rewrite app_nil_r, <- app_assoc. f_equal.
  transitivity (to_int16 <$> (take spc audio_data ++ drop spc audio_data));
    [|by rewrite take_drop].
  rewrite fmap_app. f_equal.
  destruct (drop spc audio_data) as [|x r]; [done|]. cbn. by rewrite app_nil_r.
Qed.

(** X7. The callback runs on the audio thread. When the buffer holds a
    full chunk and blocks arrive while the loop is between reading the
    buffer (line 229) and clearing it (line 250), those blocks are cleared
    with it: the chunks written hold the samples buffered before, and the
    samples that arrived during the cut are in no chunk. *)
Theorem arrivals_during_cut_are_lost {sample : Type} (to_int16 : sample -> Z)
    (bs during : list (list sample)) :
  samples_per_chunk <= length (concat bs) ->
  delivered (burst bs during) = concat bs ++ concat during
  /\ concat (emitted (record_audio_chunk to_int16 (burst bs during)))
     = (to_int16 <$> concat bs).
Proof.
  intros Hlen. split; [apply delivered_burst|].
  assert (0 < samples_per_chunk) as Hpos by (rewrite samples_per_chunk_value; lia).
  unfold record_audio_chunk, record_with, burst, record_loop.
  rewrite fold_left_app.
  fold (record_loop to_int16 samples_per_chunk (Callback <$> bs) recorder_init).
  rewrite loop_callbacks. cbn [fold_left step].
  rewrite emitted_finalize, accounted_poll_cut by done.
  unfold accounted, emitted. cbn. done.
Qed.

Lemma arrivals_during_cut_are_lost_witness :
  samples_per_chunk <= length (concat [replicate samples_per_chunk 0%Z])
  /\ delivered (burst [replicate samples_per_chunk 0%Z] [[7%Z]])
     = concat [replicate samples_per_chunk 0%Z] ++ concat [[7%Z]].
Proof.
  assert (samples_per_chunk <= length (concat [replicate samples_per_chunk 0%Z])) as H.
  { cbn [concat]. rewrite app_nil_r, length_replicate. apply Nat.le_refl. }
  split; [exact H|].
  exact (proj1 (arrivals_during_cut_are_lost id _ [[7%Z]] H)).
Defined.

(** ** Timestamps *)

Lemma Qfloor_unique (x : Q) (k : Z) :
  (inject_Z k <= x)%Q -> (x < inject_Z (k + 1))%Q -> Qfloor x = k.
Proof.
  intros Hle Hlt.
  pose proof (Qfloor_le x) as H1. pose proof (Qlt_floor x) as H2.
  assert (inject_Z k < inject_Z (Qfloor x + 1))%Q as Ha by (eapply Qle_lt_trans; eauto).
  assert (inject_Z (Qfloor x) < inject_Z (k + 1))%Q as Hb by (eapply Qle_lt_trans; eauto).
  rewrite <- Zlt_Qlt in Ha, Hb. lia.
Qed.

Lemma Qfloor_div_60 (q : Q) : Qfloor (q / 60) = (Qfloor q / 60)%Z.
Proof.
  pose proof (Qfloor_le q) as H1. pose proof (Qlt_floor q) as H2.
  pose proof (Z.div_mod (Qfloor q) 60 ltac:(lia)) as Hdm.
  pose proof (Z.mod_pos_bound (Qfloor q) 60 ltac:(lia)) as Hmod.
  set (m := (Qfloor q / 60)%Z) in *. set (r := (Qfloor q mod 60)%Z) in *.
  assert (inject_Z (Qfloor q) == 60 * inject_Z m + inject_Z r)%Q as Hq.
  { rewrite Hdm. rewrite inject_Z_plus, inject_Z_mult. reflexivity. }
  assert (0 <= inject_Z r)%Q as Hr0 by (rewrite <- (Zle_Qle 0); lia).
  assert (inject_Z r + 1 <= 60)%Q as Hr1.
  { change (inject_Z r + inject_Z 1 <= inject_Z 60)%Q.
    rewrite <- inject_Z_plus, <- Zle_Qle. lia. }
  rewrite inject_Z_plus in H2. change (inject_Z 1) with 1%Q in H2.
  apply Qfloor_unique.
  - apply Qle_shift_div_l; [reflexivity|]. lra.
  - apply Qlt_shift_div_r; [reflexivity|].
    rewrite inject_Z_plus. change (inject_Z 1) with 1%Q. lra.
Qed.

Lemma Qfloor_minus_Z (q : Q) (k : Z) : Qfloor (q - inject_Z k) = (Qfloor q - k)%Z.
Proof.
  pose proof (Qfloor_le q) as H1. pose proof (Qlt_floor q) as H2.
  rewrite inject_Z_plus in H2. change (inject_Z 1) with 1%Q in H2.
  apply Qfloor_unique.
  - unfold Z.sub. rewrite inject_Z_plus, inject_Z_opp. lra.
  - replace (Qfloor q - k + 1)%Z with (Qfloor q + 1 + - k)%Z by lia.
    rewrite !inject_Z_plus, inject_Z_opp. change (inject_Z 1) with 1%Q. lra.
Qed.

Lemma format_timestamp_floor (q : Q) :
  format_timestamp q
  = zero_pad_Z 2 (Qfloor q / 60) +:+ ":" +:+ zero_pad_Z 2 (Qfloor q mod 60).
Proof.
  unfold format_timestamp. rewrite Qfloor_div_60.
  assert (q - 60 * inject_Z (Qfloor q / 60) == q - inject_Z (60 * (Qfloor q / 60)))%Q as Heq.
  { rewrite inject_Z_mult. reflexivity. }
  rewrite (Qfloor_comp _ _ Heq), Qfloor_minus_Z.
  rewrite Z.mod_eq by lia. done.
Qed.

Lemma stamp_minutes_seconds (n : nat) :
  n * 30 / 60 = n / 2 /\ (n * 30) mod 60 = 30 * (n mod 2).
Proof.
  pose proof (Nat.div_mod_eq n 2) as Hn.
  pose proof (Nat.mod_upper_bound n 2 ltac:(lia)) as Hr.
  split.
  - symmetry. apply (Nat.div_unique _ _ _ (30 * (n mod 2))); lia.
  - symmetry. apply (Nat.mod_unique _ _ (n / 2)); lia.
Qed.

Lemma format_timestamp_nat (n : nat) :
  format_timestamp (inject_Z (Z.of_nat n))
  = zero_pad 2 (n / 60) +:+ ":" +:+ zero_pad 2 (n mod 60).
Proof.
  rewrite format_timestamp_floor, Qfloor_Z.
  change 60%Z with (Z.of_nat 60).
  rewrite <- Nat2Z.inj_div, <- Nat2Z.inj_mod.
  unfold zero_pad_Z.
  destruct (Z.ltb_spec (Z.of_nat (n / 60)) 0) as [?|_]; [lia|].
  destruct (Z.ltb_spec (Z.of_nat (n mod 60)) 0) as [?|_]; [lia|].
  by rewrite !Nat2Z.id.
Qed.

(** X8. On a whole number [n] of seconds, which is what mic mode passes
    (line 312 multiplies two integers), [format_timestamp] prints [n // 60]
    and [n % 60], each on two digits at least: the seconds are below 60
    and the minutes are not carried into hours. The stamp written for the
    file of chunk [n] is therefore [n // 2] minutes and 0 or 30 seconds. *)
Theorem format_timestamp_whole_seconds (n : nat) (text : string) :
  format_timestamp (inject_Z (Z.of_nat n))
  = zero_pad 2 (n / 60) +:+ ":" +:+ zero_pad 2 (n mod 60)
  /\ stamped_line (chunk_filename n) text
     = Some ("[" +:+ zero_pad 2 (n / 2) +:+ ":" +:+ zero_pad 2 (30 * (n mod 2))
             +:+ "] " +:+ text +:+ nl).
Proof.
  split; [apply format_timestamp_nat|].
  unfold stamped_line. rewrite chunk_num_of_filename. cbn [mbind option_bind].
  replace (Z.of_nat n * 30)%Z with (Z.of_nat (n * 30)) by lia.
  rewrite format_timestamp_nat.
  destruct (stamp_minutes_seconds n) as [-> ->]. by rewrite !string_app_assoc.
Qed.

(** ** The request *)

(** X9. The audio sent for a chunk is the chunk with pydub's 100 ms of
    silence before and after it, which stand in the audio as 1598 samples
    each: when the gain pass keeps the number of samples, as a gain does,
    the request carries 3196 samples more than the chunk. *)
Theorem padded_audio_length (apply_gain : Z -> list Z -> list Z)
    (audio_data : list Z) (prompt : option string) (speakers : nat) :
  (forall p samples, length (apply_gain p samples) = length samples) ->
  length (req_audio (build_request apply_gain audio_data prompt speakers))
  = length audio_data + 3196.
Proof.
  intros Hgain. unfold build_request, encode. cbn [req_audio].
  rewrite !length_app, length_silent_100.
  assert (length (normalized_if_needed apply_gain audio_data) = length audio_data) as ->.
  { unfold normalized_if_needed, normalize.
    destruct (_ <? _)%Z; [|done]. destruct (_ =? _)%Z; [done | apply Hgain]. }
  lia.
Qed.

Lemma padded_audio_length_witness :
  (forall p samples, length (no_gain p samples) = length samples)
  /\ length (req_audio (build_request no_gain [1%Z; 2%Z] None 2)) = 2 + 3196.
Proof.
  assert (forall p samples, length (no_gain p samples) = length samples) as H by done.
  split; [exact H|].
  exact (padded_audio_length no_gain [1%Z; 2%Z] None 2 H).
Defined.

Lemma form_data_prompt (typed : string) (speakers : nat) (p : string) :
  In ("prompt", p) (form_data (ui_prompt typed) speakers)
  <-> p = strip typed /\ truthy (strip typed) = true.
Proof.
  unfold form_data, ui_prompt. rewrite in_app_iff. split.
  - intros [Hfixed | Hprompt].
    + simpl in Hfixed. repeat (destruct Hfixed as [Hfixed | Hfixed]; [discriminate Hfixed|]).
      destruct Hfixed.
    + destruct (truthy (strip typed)) eqn:Ht; [|destruct Hprompt].
      rewrite Ht in Hprompt. destruct Hprompt as [Heq | []].
      injection Heq as <-. done.
  - intros [-> Ht]. right. rewrite Ht, Ht. by left.
Qed.

(** ** More on the segments of a reply *)

(** X11. No emitted segment has a negative time; and when the first
    segment of the reply has text, it is emitted with start time zero. *)
Theorem emitted_times_nonnegative (segs : list raw_segment) :
  Forall (fun s => (0 <= seg_start s)%Q /\ (0 <= seg_end s)%Q) (emitted_segments segs)
  /\ (forall seg rest, segs = seg :: rest -> has_text seg = true ->
        exists s ss, emitted_segments segs = s :: ss /\ (seg_start s == 0)%Q).
Proof.
  pose proof (emitted_times segs) as Ht. split.
  - assert (Forall (fun t : Q * Q => (0 <= t.1)%Q /\ (0 <= t.2)%Q)
              (seg_times <$> emitted_segments segs)) as H.
    { rewrite Ht. apply Forall_fmap, Forall_forall. intros seg _.
      split; apply max0_nonneg. }
    by rewrite Forall_fmap in H.
  - intros seg rest -> Hseg. cbn [List.filter first_start] in Ht. rewrite Hseg in Ht.
    destruct (emitted_segments (seg :: rest)) as [|s ss]; [discriminate Ht|].
    exists s, ss. split; [done|].
    cbn [fmap list_fmap] in Ht. unfold seg_times at 1, times_from at 1 in Ht.
    injection Ht as Hs _ _. rewrite Hs.
    unfold max0. destruct (Qlt_le_dec 0 (start_of seg - start_of seg)); lra.
Qed.

Lemma resolve_speaker_label (k : nat) (st : loop_state) (seg : raw_segment) :
  tracks k st ->
  (resolve_speaker seg st).1.1 = label_at k seg
  /\ tracks (if is_unlabeled seg then S k else k) (segment_step st seg).
Proof.
  intros Hk. unfold is_unlabeled, label_at.
  destruct (raw_speaker seg) as [speaker|] eqn:Hs.
  - unfold segment_step, resolve_speaker. rewrite Hs. split; [done|].
    destruct k; simpl in *; done.
  - destruct (raw_speaker_id seg) as [speaker_id|] eqn:Hid.
    + unfold segment_step, resolve_speaker. rewrite Hs, Hid. split; [done|].
      destruct k; simpl in *; done.
    + by apply resolve_speaker_unlabeled.
Qed.

Lemma speakers_from_loop (segs : list raw_segment) (k : nat) (st : loop_state) :
  tracks k st ->
  seg_speaker <$> formatted_text (fold_left segment_step segs st)
  = (seg_speaker <$> formatted_text st) ++ speakers_from k segs.
Proof.
  revert k st. induction segs as [|seg segs IH]; intros k st Hk.
  - simpl. by rewrite app_nil_r.
  - simpl. destruct (resolve_speaker_label k st seg Hk) as [Hl Hk'].
    rewrite (IH _ _ Hk'). rewrite formatted_text_step, fmap_app, <- app_assoc.
    f_equal. f_equal. unfold has_text. destruct (truthy (stripped_text seg)); [|done].
    simpl. by rewrite Hl.
Qed.

(** X12. How a speaker is chosen, for any reply: the [speaker] field if the
    segment has one, else "Speaker" and [speaker_id + 1], else the label
    that alternates. A segment that names its speaker does not take a turn
    in the alternation: the label of a segment without speaker information
    depends only on how many such segments came before it in the reply. *)
Theorem speakers_by_precedence (segs : list raw_segment) :
  (seg_speaker <$> emitted_segments segs) = speakers_from 0 segs.
Proof.
  unfold emitted_segments, segments_loop.
  by rewrite (speakers_from_loop segs 0 loop_init).
Qed.

(** ** Mic mode: which files are transcribed *)

Section Sorting.
Implicit Types (x : string) (l : list string).

Lemma insert_sorted_perm x l : insert_sorted x l ≡ₚ x :: l.
Proof.
  induction l as [|y l IH]; [done|]. simpl.
  destruct (String.leb x y); [done|]. rewrite IH. apply Permutation_swap.
Qed.

Lemma sorted_perm l : sorted l ≡ₚ l.
Proof.
  induction l as [|x l IH]; [done|]. unfold sorted in *. simpl.
  by rewrite insert_sorted_perm, IH.
Qed.

Lemma insert_sorted_hd x y l :
  name_le y x -> HdRel name_le y l -> HdRel name_le y (insert_sorted x l).
Proof.
  intros Hyx Hl. destruct l as [|z l]; simpl; [by constructor|].
  destruct (String.leb x z); constructor; [done|]. by inversion Hl.
Qed.

Lemma insert_sorted_sorted x l : Sorted name_le l -> Sorted name_le (insert_sorted x l).
Proof.
  induction 1 as [|y l Hl IH Hhd]; simpl; [by repeat constructor|].
  destruct (String.leb x y) eqn:Hxy.
  - constructor; [by constructor|]. by constructor.
  - constructor; [exact IH|]. apply insert_sorted_hd; [|done].
    destruct (String.leb_total x y) as [H|H]; [congruence | exact H].
Qed.

Lemma sorted_sorted l : Sorted name_le (sorted l).
Proof.
  induction l as [|x l IH]; [constructor|]. unfold sorted in *. simpl.
  by apply insert_sorted_sorted.
Qed.
End Sorting.

(** X13. The files that [transcribe_recorded_chunks] transcribes are the
    entries of the directory whose names end in [.wav], each once, in the
    order of their names as strings; every other entry is ignored. *)
Theorem wav_files_are_the_wav_entries (d : directory) :
  (forall name, name ∈ wav_files d <-> is_Some (d !! name) /\ ends_with ".wav" name = true)
  /\ NoDup (wav_files d)
  /\ Sorted name_le (wav_files d).
Proof.
  unfold wav_files. split; [|split].
  - intros name. rewrite sorted_perm, list_elem_of_In, filter_In, <- list_elem_of_In.
    by rewrite listdir_spec.
  - rewrite sorted_perm. apply NoDup_ListNoDup, List.NoDup_filter, NoDup_ListNoDup.
    apply NoDup_fst_map_to_list.
  - apply sorted_sorted.
Qed.

Lemma wav_files_are_the_wav_entries_aux (d : directory) (name : string) :
  name ∈ wav_files d -> is_Some (d !! name).
Proof.
  unfold wav_files.
  rewrite sorted_perm, list_elem_of_In, filter_In, <- list_elem_of_In, listdir_spec.
  by intros [? _].
Qed.

Section MicCalls.
Variable apply_gain : Z -> list Z -> list Z.
Variable service : nat -> request -> api_outcome.

Lemma mic_step_calls (d : directory) (w : world) (name : string) :
  calls (mic_step apply_gain service d w name)
  = calls w ++ from_option (fun f => [chunk_request apply_gain (file_samples f)]) [] (d !! name)
  /\ clock_reads (mic_step apply_gain service d w name) = clock_reads w.
Proof.
  unfold mic_step. destruct (d !! name) as [f|]; simpl; [|by rewrite app_nil_r].
  rewrite transcribe_audio_outcome. by destruct (truthy _).
Qed.

Lemma mic_loop_calls (d : directory) (files : list string) (w : world) :
  calls (fold_left (mic_step apply_gain service d) files w)
  = calls w
    ++ omap (fun name => (fun f => chunk_request apply_gain (file_samples f)) <$> d !! name) files
  /\ clock_reads (fold_left (mic_step apply_gain service d) files w) = clock_reads w.
Proof.
  revert w. induction files as [|name files IH]; intros w.
  - simpl. by rewrite app_nil_r.
  - simpl. destruct (IH (mic_step apply_gain service d w name)) as [-> ->].
    destruct (mic_step_calls d w name) as [-> ->]. split; [|done].
    rewrite <- app_assoc. f_equal. by destruct (d !! name).
Qed.
End MicCalls.

(** X14. [transcribe_recorded_chunks] calls the service once for every WAV
    file of the directory, in the order of the file names and whatever the
    answers are, and never reads the clock. *)
Theorem one_call_per_wav_file (apply_gain : Z -> list Z -> list Z)
    (service : nat -> request -> api_outcome) (d : directory) (w : world) :
  let w' := transcribe_recorded_chunks apply_gain service (Some d) w in
  calls w' = calls w ++ wav_requests apply_gain d
  /\ length (wav_requests apply_gain d) = length (wav_files d)
  /\ clock_reads w' = clock_reads w.
Proof.
  cbv zeta. unfold transcribe_recorded_chunks, wav_requests.
  assert (length (omap (fun name => (fun f => chunk_request apply_gain (file_samples f))
                                    <$> d !! name) (wav_files d))
          = length (wav_files d)) as Hlen.
  { pose proof (wav_files_are_the_wav_entries_aux d) as Hin.
    induction (wav_files d) as [|name files IH]; [done|].
    simpl. destruct (Hin name ltac:(by left)) as [f ->]. simpl. f_equal.
    apply IH. intros n Hn. apply Hin. by right. }
  split; [|split; [exact Hlen|]].
  - destruct (wav_files d) as [|name files] eqn:Hfiles.
    + simpl. by rewrite app_nil_r.
    + by destruct (mic_loop_calls apply_gain service d (name :: files)
                     (World (calls w) (clock_reads w) EmptyString)) as [-> _].
  - destruct (wav_files d) as [|name files] eqn:Hfiles; [done|].
    by destruct (mic_loop_calls apply_gain service d (name :: files)
                   (World (calls w) (clock_reads w) EmptyString)) as [_ ->].
Qed.

(** X15. A WAV file whose name has no underscore is transcribed like the
    others, one call being made for it, but line 311 then raises and its
    transcript is never written. *)
Theorem unnumbered_wav_is_dropped (apply_gain : Z -> list Z -> list Z)
    (service : nat -> request -> api_outcome) (d : directory) (w : world)
    (name : string) (f : file) :
  d !! name = Some f ->
  all_chars (is_not "_") name = true ->
  calls (mic_step apply_gain service d w name)
  = calls w ++ [chunk_request apply_gain (file_samples f)]
  /\ transcript (mic_step apply_gain service d w name) = transcript w.
Proof.
  intros Hf Hname.
  destruct (mic_step_calls apply_gain service d w name) as [Hc _].
  rewrite Hf in Hc. split; [exact Hc|].
  unfold mic_step. rewrite Hf.
  destruct (transcribe_audio _ _ _ _ _ _) as [text calls'].
  destruct (truthy text); [|done]. cbn [transcript].
  unfold stamped_line, chunk_num_of. rewrite split_on_none by done.
  cbn. apply string_app_nil_r.
Qed.

Lemma unnumbered_wav_is_dropped_witness :
  dir_take1 !! "take1.wav" = Some (File [1%Z; 2%Z] false)
  /\ all_chars (is_not "_") "take1.wav" = true
  /\ transcript (mic_step no_gain (says "hi") dir_take1 world_init "take1.wav")
     = transcript world_init.
Proof.
  assert (dir_take1 !! "take1.wav" = Some (File [1%Z; 2%Z] false)) as H1
    by (unfold dir_take1; apply lookup_singleton_eq).
  assert (all_chars (is_not "_") "take1.wav" = true) as H2 by reflexivity.
  split; [exact H1|]. split; [exact H2|].
  exact (proj2 (unnumbered_wav_is_dropped no_gain (says "hi") dir_take1 world_init
                  "take1.wav" _ H1 H2)).
Defined.

(** ** Mic mode: a recording without audio *)

Lemma loop_without_blocks {sample : Type} (to_int16 : sample -> Z) (spc : nat)
    (events : list (event (sample:=sample))) :
  blocks_of events = [] ->
  record_loop to_int16 spc events recorder_init = recorder_init.
Proof.
  induction events as [|e events IH]; [done|].
  destruct e as [b|during]; [discriminate|].
  cbn [blocks_of flat_map]. intros H. apply app_eq_nil in H as [-> H].
  unfold record_loop in *. cbn. by apply IH.
Qed.

Lemma filter_none {X : Type} (p : X -> bool) (l : list X) :
  (forall x, x ∈ l -> p x = false) -> List.filter p l = [].
Proof.
  induction l as [|x l IH]; [done|]. intros H. simpl.
  rewrite (H x) by (by left). apply IH. intros y Hy. apply H. by right.
Qed.

(** X16. When the device delivers no block before the recording ends and
    every old chunk could be removed, no WAV file is left in the
    directory: [transcribe_recorded_chunks] returns without opening the
    transcript file and without calling the service, so the transcript of
    the run before is still what the file holds. *)
Theorem silent_run_keeps_old_transcript {sample : Type} (to_int16 : sample -> Z)
    (apply_gain : Z -> list Z -> list Z) (service : nat -> request -> api_outcome)
    (d : directory) (events : list (event (sample:=sample))) (w : world) :
  blocks_of events = [] ->
  (forall name f, d !! name = Some f -> ends_with ".wav" name = true -> file_locked f = false) ->
  transcribe_recorded_chunks apply_gain service
    (Some (record_to_dir to_int16 (Some d) events)) w = w.
Proof.
  intros Hev Hd. unfold record_to_dir, record_audio_chunk, record_with.
  rewrite loop_without_blocks by done. cbn [finalize audio_buffer recorder_init written fold_left].
  unfold transcribe_recorded_chunks, wav_files.
  rewrite filter_none; [done|].
  intros name Hin. apply listdir_spec in Hin as [f Hf].
  rewrite prepare_output_dir_lookup in Hf. unfold after_cleanup in Hf.
  destruct (d !! name) as [f0|] eqn:Hf0; [|done].
  destruct (ends_with ".wav" name) eqn:Hwav; [|done].
  rewrite (Hd name f0 Hf0 Hwav) in Hf. done.
Qed.

Lemma silent_run_keeps_old_transcript_witness :
  blocks_of [Poll (sample:=Z) []] = []
  /\ transcribe_recorded_chunks no_gain (says "hi")
       (Some (record_to_dir id (Some dir_old_chunk) [Poll []]))
       (World [] 0 "[00:30] earlier")
     = World [] 0 "[00:30] earlier".
Proof.
  assert (blocks_of [Poll (sample:=Z) []] = []) as H1 by reflexivity.
  assert (forall name f, dir_old_chunk !! name = Some f ->
                         ends_with ".wav" name = true -> file_locked f = false) as H2.
  { intros name f Hf _. unfold dir_old_chunk in Hf.
    apply lookup_singleton_Some in Hf as [_ <-]. reflexivity. }
  split; [exact H1|].
  exact (silent_run_keeps_old_transcript id no_gain (says "hi") dir_old_chunk
           [Poll []] (World [] 0 "[00:30] earlier") H1 H2).
Defined.

(** ** File mode: what a run appends *)

Lemma process_audio_file_count {A : Type} (audio : list A) :
  length (process_audio_file audio) = total_chunks audio.
Proof.
  unfold process_audio_file, total_chunks. apply chunks_by_count, chunk_length_ms_pos.
Qed.

Section FileLines.
Variable apply_gain : Z -> list Z -> list Z.
Variable service : nat -> request -> api_outcome.
Variable clock : nat -> Q.

Lemma file_loop_lines (chunks : list (list Z)) (w : world) :
  transcript (file_loop apply_gain service clock chunks w)
  = transcript w
    +:+ concat_strings (file_lines apply_gain service clock
                          (length (calls w)) (clock_reads w) chunks)
  /\ clock_reads (file_loop apply_gain service clock chunks w)
     = clock_reads w
       + length (file_lines apply_gain service clock
                   (length (calls w)) (clock_reads w) chunks).
Proof.
  revert w. induction chunks as [|chunk chunks IH]; intros w.
  - simpl. rewrite string_app_nil_r. split; [done | lia].
  - unfold file_loop in *. cbn [fold_left file_lines].
    destruct (IH (file_step apply_gain service clock w chunk)) as [-> ->].
    rewrite file_step_calls, length_app. cbn [length].
    replace (length (calls w) + 1) with (S (length (calls w))) by lia.
    rewrite file_step_transcript.
    unfold file_step. rewrite transcribe_audio_outcome.
    fold (chunk_request apply_gain chunk).
    destruct (truthy _); cbn [clock_reads concat_strings foldr length].
    + rewrite string_app_assoc. split; [done | lia].
    + rewrite string_app_nil_r. split; [done | lia].
Qed.
End FileLines.

Lemma file_lines_length (apply_gain : Z -> list Z -> list Z)
    (service : nat -> request -> api_outcome) (clock : nat -> Q)
    (n r : nat) (chunks : list (list Z)) :
  length (file_lines apply_gain service clock n r chunks) <= length chunks.
Proof.
  revert n r. induction chunks as [|c cs IH]; intros n r; [done|].
  cbn [file_lines length]. destruct (truthy _); cbn [length].
  - specialize (IH (S n) (S r)). lia.
  - specialize (IH (S n) r). lia.
Qed.

(** X17. A file run appends to [transcript.txt] one line for every chunk
    whose transcript is not empty, and nothing for the others; the n-th
    chunk is answered by the n-th call, and the lines are stamped with
    successive readings of the clock, one reading per line written. *)
Theorem file_run_lines (apply_gain : Z -> list Z -> list Z)
    (service : nat -> request -> api_outcome) (clock : nat -> Q)
    (audio : list (list Z)) (w : world) :
  let lines := file_lines apply_gain service clock (length (calls w)) (clock_reads w)
                 (get_array_of_samples <$> process_audio_file audio) in
  transcript (main_file apply_gain service clock audio w)
  = transcript w +:+ concat_strings lines
  /\ clock_reads (main_file apply_gain service clock audio w)
     = clock_reads w + length lines
  /\ length lines <= total_chunks audio.
Proof.
  cbv zeta. unfold main_file.
  destruct (file_loop_lines apply_gain service clock
              (get_array_of_samples <$> process_audio_file audio) w) as [Ht Hc].
  split; [exact Ht|]. split; [exact Hc|].
  rewrite <- (process_audio_file_count audio).
  rewrite <- (length_fmap get_array_of_samples). apply file_lines_length.
Qed.

(** ** The display of a transcript ([MainWindow.update_transcript]) *)

Lemma find_index_cons pat x s :
  find_index pat (String x s)
  = if String.prefix pat (String x s) then Some 0 else S <$> find_index pat s.
Proof. done. Qed.

Lemma prefix_nil (s : string) : String.prefix EmptyString s = true.
Proof. by destruct s. Qed.

Lemma prefix_cons a s1 b s2 :
  String.prefix (String a s1) (String b s2)
  = if ascii_dec a b then String.prefix s1 s2 else false.
Proof. done. Qed.

Lemma prefix_app (p s : string) : String.prefix p (p +:+ s) = true.
Proof.
  induction p as [|c p IH]; [apply prefix_nil|].
  change (String.prefix (String c p) (String c (p +:+ s)) = true).
  rewrite prefix_cons. by destruct (ascii_dec c c).
Qed.

Lemma find_index_here pat b : find_index pat (pat +:+ b) = Some 0.
Proof.
  destruct pat as [|c p]; [by destruct b|].
  change (find_index (String c p) (String c (p +:+ b)) = Some 0).
  rewrite find_index_cons.
  change (String c (p +:+ b)) with (String c p +:+ b). by rewrite prefix_app.
Qed.

Lemma find_index_skip c p x r :
  x <> c -> find_index (String c p) (String x r) = S <$> find_index (String c p) r.
Proof.
  intros H. rewrite find_index_cons, prefix_cons.
  destruct (ascii_dec c x) as [Heq|]; [by destruct H|done].
Qed.

Lemma is_not_neq c x : is_not c x = true -> x <> c.
Proof. unfold is_not. intros H ->. by rewrite Ascii.eqb_refl in H. Qed.

(** The first occurrence of a pattern, after a text without the first
    character of the pattern. *)
Lemma find_index_first c p a b :
  all_chars (is_not c) a = true ->
  find_index (String c p) (a +:+ String c p +:+ b) = Some (String.length a).
Proof.
  induction a as [|x a IH]; intros H.
  - exact (find_index_here (String c p) b).
  - simpl in H. apply andb_true_iff in H as [Hx Ha].
    change (find_index (String c p) (String x (a +:+ String c p +:+ b))
            = Some (S (String.length a))).
    rewrite find_index_skip by by apply is_not_neq. by rewrite (IH Ha).
Qed.

Lemma find_index_occurs pat a b : is_Some (find_index pat (a +:+ pat +:+ b)).
Proof.
  induction a as [|x a IH].
  - change (is_Some (find_index pat (pat +:+ b))). rewrite find_index_here. eauto.
  - change (is_Some (find_index pat (String x (a +:+ pat +:+ b)))).
    rewrite find_index_cons. destruct (String.prefix _ _); [eauto|].
    destruct IH as [i ->]. simpl. eauto.
Qed.



(** The first ": " behind a text without ": " is at the end of that text. *)
Lemma colon_space_first a b :
  find_index ": " a = None ->
  find_index ": " (a +:+ ": " +:+ b) = Some (String.length a).
Proof.
  induction a as [|x a IH].
  - intros _. exact (find_index_here ": " b).
  - rewrite find_index_cons.
    destruct (String.prefix ": " (String x a)) eqn:Hp; [done|].
    destruct (find_index ": " a) eqn:Hf; [done|]. intros _.
    change (find_index ": " (String x (a +:+ ": " +:+ b)) = Some (S (String.length a))).
    rewrite find_index_cons, (IH eq_refl).
    assert (String.prefix ": " (String x (a +:+ ": " +:+ b)) = false) as ->; [|done].
    revert Hp. rewrite !prefix_cons. destruct (ascii_dec ":" x) as [_|]; [|done].
    destruct a as [|y a].
    { intros _. change (EmptyString +:+ ": " +:+ b) with (String ":" (String " " b)).
      rewrite prefix_cons. by destruct (ascii_dec " " ":"). }
    change (String y a +:+ ": " +:+ b) with (String y (a +:+ ": " +:+ b)).
    rewrite !prefix_cons. destruct (ascii_dec " " y) as [_|]; [|done].
    by rewrite prefix_nil.
Qed.

Lemma str_take_app a k b :
  str_take (String.length a + k) (a +:+ b) = a +:+ str_take k b.
Proof.
  induction a as [|x a IH]; [done|].
  change (String x (str_take (String.length a + k) (a +:+ b))
          = String x (a +:+ str_take k b)). by rewrite IH.
Qed.

Lemma str_drop_app a k b :
  str_drop (String.length a + k) (a +:+ b) = str_drop k b.
Proof. induction a as [|x a IH]; [done|]. exact IH. Qed.

Lemma split_once_first a b :
  find_index ": " a = None -> split_once ": " (a +:+ ": " +:+ b) = [a; b].
Proof.
  intros H. unfold split_once. rewrite (colon_space_first a b H).
  rewrite <- (Nat.add_0_r (String.length a)) at 1.
  rewrite str_take_app, str_drop_app.
  change (str_take 0 (": " +:+ b)) with EmptyString.
  by rewrite string_app_nil_r.
Qed.

(** The characters of a printed number and of a printed time. *)
Lemma time_char_classes c :
  is_digit c = true \/ c = "-"%char ->
  is_not "]" c = true /\ is_not newline c = true /\ is_not ":" c = true
  /\ is_not " " c = true.
Proof.
  intros [H | ->]; [|done]. revert H.
  destruct c as [[|] [|] [|] [|] [|] [|] [|] [|]]; vm_compute; intros H;
    first [discriminate H | repeat split].
Qed.

Lemma zero_pad_Z_chars (p : ascii -> bool) w z :
  (forall c, is_digit c = true \/ c = "-"%char -> p c = true) ->
  all_chars p (zero_pad_Z w z) = true.
Proof.
  intros Hp. unfold zero_pad_Z. destruct (z <? 0)%Z.
  - change (p "-"%char && all_chars p (zero_pad (w - 1) (Z.to_nat (- z))) = true).
    rewrite Hp by by right. simpl.
    eapply all_chars_impl; [|apply all_chars_zero_pad]. intros c Hc. apply Hp. by left.
  - eapply all_chars_impl; [|apply all_chars_zero_pad]. intros c Hc. apply Hp. by left.
Qed.


Lemma format_timestamp_chars (p : ascii -> bool) q :
  (forall c, is_digit c = true \/ c = "-"%char -> p c = true) ->
  p ":"%char = true ->
  all_chars p (format_timestamp q) = true.
Proof.
  intros Hp Hc. unfold format_timestamp. cbv zeta.
  rewrite !all_chars_app, !zero_pad_Z_chars by done. simpl. by rewrite Hc.
Qed.


Lemma time_range_chars (p : ascii -> bool) s :
  (forall c, is_digit c = true \/ c = "-"%char -> p c = true) ->
  p ":"%char = true -> p "["%char = true -> p " "%char = true ->
  all_chars p (time_range s) = true.
Proof.
  intros Hp Hc Hb Hs. unfold time_range.
  rewrite !all_chars_app, !format_timestamp_chars by done.
  simpl. rewrite Hb, Hs, Hp by by right. done.
Qed.

Lemma format_segment_split s :
  format_segment s
  = time_range s +:+ "] " +:+ seg_speaker s +:+ ": " +:+ seg_text s.
Proof. unfold format_segment, time_range. by rewrite !string_app_assoc. Qed.


Lemma show_segment_at (stamp rest : string) :
  all_chars (is_not "]") stamp = true ->
  is_Some (find_index ": " (stamp +:+ "] " +:+ rest)) ->
  show_segment (stamp +:+ "] " +:+ rest)
  = match split_once ": " rest with
    | [speaker; text] => Some (Labeled (stamp +:+ "] ") speaker text)
    | _ => None
    end.
Proof.
  intros Hstamp [i Hi]. unfold show_segment, contains, py_find.
  rewrite Hi, (find_index_first "]" " " stamp rest Hstamp).
  replace (Z.to_nat (Z.of_nat (String.length stamp) + 2)) with (String.length stamp + 2)
    by lia.
  rewrite str_take_app, str_drop_app. done.
Qed.

Lemma show_segment_format s :
  find_index ": " (seg_speaker s) = None ->
  show_segment (format_segment s) = Some (shown_of s).
Proof.
  intros H. rewrite format_segment_split.
  rewrite show_segment_at.
  - by rewrite (split_once_first _ _ H).
  - apply time_range_chars; [|done..]. intros c Hc. by apply time_char_classes.
  - rewrite <- !string_app_assoc. rewrite string_app_assoc.
    apply find_index_occurs.
Qed.

(** X18. The window takes a transcript line apart into the parts it was
    made of: the time range with its brackets, the speaker and the text,
    whenever the speaker's name holds no colon followed by a space. *)
Theorem window_shows_segment (s : segment) :
  contains ": " (seg_speaker s) = false ->
  show_segment (format_segment s)
  = Some (Labeled ("[" +:+ format_timestamp (seg_start s) +:+ " - "
                   +:+ format_timestamp (seg_end s) +:+ "] ")
                  (seg_speaker s) (seg_text s)).
Proof.
  unfold contains. intros H.
  destruct (find_index ": " (seg_speaker s)) eqn:Hf; [done|].
  rewrite (show_segment_format s Hf). unfold shown_of, time_range.
  by rewrite !string_app_assoc.
Qed.

Lemma window_shows_segment_witness :
  show_segment (format_segment (Segment 0 5 "Speaker 1" "a: b"))
  = Some (Labeled "[00:00 - 00:05] " "Speaker 1" "a: b").
Proof. exact (window_shows_segment (Segment 0 5 "Speaker 1" "a: b") eq_refl). Defined.

Lemma contains_false pat s : contains pat s = false -> find_index pat s = None.
Proof. unfold contains. by destruct (find_index pat s). Qed.

Lemma format_segment_one_line s :
  displayable s -> all_chars (is_not newline) (format_segment s) = true.
Proof.
  intros (_ & Hs & Ht). rewrite format_segment_split, !all_chars_app, Hs, Ht.
  rewrite time_range_chars; [done| |done..]. intros c Hc. by apply time_char_classes.
Qed.


Lemma split_on_join_end l ls :
  Forall (fun l => all_chars (is_not newline) l = true) (l :: ls) ->
  split_on newline (join nl (l :: ls)) = l :: ls.
Proof.
  revert l. induction ls as [|l' ls IH]; intros l Hall.
  - apply Forall_cons in Hall as [Hl _]. cbn [join]. by apply split_on_none.
  - apply Forall_cons in Hall as [Hl Hall].
    change (join nl (l :: l' :: ls)) with (l +:+ nl +:+ join nl (l' :: ls)).
    change (nl +:+ ?s) with (String newline s).
    rewrite (split_on_first _ _ _ Hl), (IH l' Hall). done.
Qed.


Lemma show_segments_format (ss : list segment) (tail : list string) :
  Forall displayable ss ->
  show_segments ((format_segment <$> ss) ++ tail)
  = ((shown_of <$> ss) ++ (show_segments tail).1, (show_segments tail).2).
Proof.
  induction ss as [|s ss IH]; intros Hall.
  - cbn [fmap list_fmap app]. by destruct (show_segments tail).
  - apply Forall_cons in Hall as [(Hs & _) Hall].
    cbn [fmap list_fmap app show_segments].
    rewrite (show_segment_format s (contains_false _ _ Hs)).
    change (list_fmap _ _ format_segment ss) with (format_segment <$> ss).
    by rewrite (IH Hall).
Qed.

(** X19. A reply with segments arrives in the window as its segments: the
    transcript made from the reply is taken apart line by line into the
    time range, speaker and text of each emitted segment, in order, when no
    speaker or text holds a line break and no speaker holds a colon
    followed by a space. *)
Theorem window_shows_reply (segs : list raw_segment) :
  emitted_segments segs <> [] ->
  Forall displayable (emitted_segments segs) ->
  update_transcript (format_reply (Segments segs))
  = (shown_of <$> emitted_segments segs, false).
Proof.
  intros Hne Hall. unfold update_transcript, format_reply.
  destruct (emitted_segments segs) as [|s ss]; [done|].
  change (format_segment <$> s :: ss) with (format_segment s :: (format_segment <$> ss)).
  rewrite split_on_join_end.
  - change (format_segment s :: (format_segment <$> ss))
      with (format_segment <$> s :: ss).
    rewrite <- (app_nil_r (format_segment <$> s :: ss)).
    rewrite (show_segments_format (s :: ss) [] Hall). cbn [show_segments fst snd].
    by rewrite app_nil_r.
  - change (format_segment s :: (format_segment <$> ss))
      with (format_segment <$> s :: ss).
    apply Forall_fmap. eapply Forall_impl; [exact Hall|].
    intros x Hx. by apply format_segment_one_line.
Qed.

Lemma window_shows_reply_witness :
  update_transcript (format_reply (Segments reply_two))
  = ([Labeled "[00:00 - 00:05] " "Speaker 1" "a";
      Labeled "[00:05 - 00:10] " "Speaker 2" "b"], false).
Proof.
  refine (window_shows_reply reply_two _ _).
  - discriminate.
  - repeat constructor.
Defined.

(** X20. A line that holds ": " but no "] ", such as a plain-text reply
    "Note: hello", is shown with its first character in the place of the
    timestamp and the rest up to the first ": " as the speaker: [find]
    answers -1 and the code adds 2. *)
Theorem window_line_without_bracket (c : ascii) (a b : string) :
  contains "] " (String c (a +:+ ": " +:+ b)) = false ->
  contains ": " a = false ->
  show_segment (String c (a +:+ ": " +:+ b))
  = Some (Labeled (String c EmptyString) a b).
Proof.
  intros Hb Ha. unfold show_segment, py_find.
  rewrite (contains_false _ _ Hb).
  assert (contains ": " (String c (a +:+ ": " +:+ b)) = true) as ->.
  { unfold contains.
    destruct (find_index_occurs ": " (String c a) b) as [i Hi].
    change (String c a +:+ ": " +:+ b) with (String c (a +:+ ": " +:+ b)) in Hi.
    by rewrite Hi. }
  change (Z.to_nat (-1 + 2)) with 1. cbn [str_take str_drop].
  by rewrite (split_once_first a b (contains_false _ _ Ha)).
Qed.

Lemma window_line_without_bracket_witness :
  show_segment "Note: hello" = Some (Labeled "N" "ote" "hello").
Proof. exact (window_line_without_bracket "N" "ote" "hello" eq_refl eq_refl). Defined.



(** ** The worker of the window in file mode ([TranscriptionWorker.run]) *)

Section WorkerFacts.
Variable apply_gain : Z -> list Z -> list Z.
Variable service : nat -> request -> api_outcome.
Variable prompt : option string.
Variable speakers : nat.

Lemma worker_step_outcome (st : worker_state) (chunk : list Z) :
  let req := build_request apply_gain chunk prompt speakers in
  let text := text_of_outcome (service (length (worker_calls st)) req) in
  worker_step apply_gain service prompt speakers st chunk
  = WorkerState (worker_calls st ++ [req])
                (progress st ++ List.filter truthy [text]).
Proof.
  cbv zeta. unfold worker_step. rewrite transcribe_audio_outcome.
  cbn [List.filter]. destruct (truthy _); [done|]. by rewrite app_nil_r.
Qed.

Lemma worker_loop (chunks : list (list Z)) (st : worker_state) :
  let requests := (fun c => build_request apply_gain c prompt speakers) <$> chunks in
  let st' := fold_left (worker_step apply_gain service prompt speakers) chunks st in
  worker_calls st' = worker_calls st ++ requests
  /\ progress st'
     = progress st
       ++ List.filter truthy
            (imap (fun n req => text_of_outcome (service (length (worker_calls st) + n) req))
                  requests).
Proof.
  cbv zeta. revert st. induction chunks as [|c cs IH]; intros st.
  - cbn. by rewrite !app_nil_r.
  - cbn [fold_left]. destruct (IH (worker_step apply_gain service prompt speakers st c))
      as [Hcalls Hprogress].
    rewrite Hcalls, Hprogress, worker_step_outcome.
    cbn [worker_calls progress]. rewrite fmap_cons, imap_cons.
    rewrite <- !app_assoc. split; [done|]. f_equal.
    rewrite Nat.add_0_r, <- List.filter_app. cbn [app]. f_equal. f_equal.
    apply imap_ext. intros n req _. cbn. rewrite length_app. cbn [length].
    by replace (length (worker_calls st) + 1 + n) with (length (worker_calls st) + S n) by lia.
Qed.
End WorkerFacts.

(** X22. In the file mode of the window every chunk of the file costs one
    request, which carries the prompt and the number of speakers chosen in
    the window; the n-th chunk is answered by the n-th call, and the window
    is handed the answers that are not empty, in the order of the chunks. *)
Theorem worker_file_run (apply_gain : Z -> list Z -> list Z)
    (service : nat -> request -> api_outcome) (prompt : option string)
    (speakers : nat) (audio : list (list Z)) (st : worker_state) :
  let requests :=
    (fun c => build_request apply_gain c prompt speakers)
      <$> (get_array_of_samples <$> process_audio_file audio) in
  let st' := worker_file apply_gain service prompt speakers audio st in
  worker_calls st' = worker_calls st ++ requests
  /\ length requests = total_chunks audio
  /\ progress st'
     = progress st
       ++ List.filter truthy
            (imap (fun n req => text_of_outcome (service (length (worker_calls st) + n) req))
                  requests).
Proof.
  cbv zeta. unfold worker_file.
  destruct (worker_loop apply_gain service prompt speakers
              (get_array_of_samples <$> process_audio_file audio) st) as [Hc Hp].
  split; [exact Hc|]. split; [|exact Hp].
  rewrite !length_fmap. apply process_audio_file_count.
Qed.

(** ** Mic mode: the order in which the chunks are transcribed *)

Lemma name_le_trans (s1 s2 s3 : string) :
  name_le s1 s2 -> name_le s2 s3 -> name_le s1 s3.
Proof.
  unfold name_le, String.leb. revert s2 s3.
  induction s1 as [|c1 s1 IH]; intros [|c2 s2] [|c3 s3]; cbn [String.compare]; try done.
  unfold Ascii.compare.
  destruct (N.compare_spec (N_of_ascii c1) (N_of_ascii c2)) as [H12|H12|H12],
           (N.compare_spec (N_of_ascii c2) (N_of_ascii c3)) as [H23|H23|H23],
           (N.compare_spec (N_of_ascii c1) (N_of_ascii c3)) as [H13|H13|H13];
    try done; try lia.
  apply IH.
Qed.

Lemma chunk_filename_wav (n : nat) : ends_with ".wav" (chunk_filename n) = true.
Proof. unfold chunk_filename. rewrite <- string_app_assoc. apply ends_with_app. Qed.

(** Up to the 999th chunk a name comes before the name of the next chunk. *)
Lemma chunk_names_ascend (k : nat) :
  k < 999 -> name_le (chunk_filename k) (chunk_filename (S k)).
Proof.
  intros Hk.
  assert (forallb (fun k => String.leb (chunk_filename k) (chunk_filename (S k)))
                  (seq 0 999) = true) as H by (vm_compute; reflexivity).
  rewrite forallb_forall in H. apply H. apply in_seq. lia.
Qed.

Lemma chunk_names_sorted (a n : nat) :
  a + n <= 1000 -> Sorted name_le (chunk_filename <$> seq a n).
Proof.
  revert a. induction n as [|n IH]; intros a Ha; [constructor|].
  cbn [seq fmap list_fmap]. constructor.
  - apply IH. lia.
  - destruct n as [|n]; constructor. apply chunk_names_ascend. lia.
Qed.

Lemma sorted_adjacent {A : Type} (R : A -> A -> Prop) (l : list A) (i : nat) (x y : A) :
  Sorted R l -> l !! i = Some x -> l !! S i = Some y -> R x y.
Proof.
  intros Hs. revert i. induction Hs as [|z l Hs IH Hhd]; intros i Hx Hy; [done|].
  destruct i as [|i].
  - injection Hx as ->. destruct Hhd as [|b l Hb]; [done|]. by injection Hy as ->.
  - by apply (IH i).
Qed.

(** X23. The names of the chunks of a recording are in the order of
    [sorted], the order in which [transcribe_recorded_chunks] goes through
    them, exactly as long as there are at most 999 of them: the number is
    printed with three digits, and the name of the 1000th chunk comes
    before the name of the 999th. *)
Theorem chunk_names_in_order_iff (n : nat) :
  Sorted name_le (chunk_filename <$> seq 1 n) <-> n <= 999.
Proof.
  split.
  - intros Hs. destruct (decide (n <= 999)) as [|Hn]; [done|]. exfalso.
    assert (name_le (chunk_filename 999) (chunk_filename 1000)) as Hle.
    { apply (sorted_adjacent name_le _ 998 _ _ Hs).
      - rewrite list_lookup_fmap, lookup_seq_lt by lia. done.
      - rewrite list_lookup_fmap, lookup_seq_lt by lia. done. }
    revert Hle. unfold name_le.
    assert (String.leb (chunk_filename 999) (chunk_filename 1000) = false) as ->
      by (vm_compute; reflexivity).
    done.
  - intros Hn. apply chunk_names_sorted. lia.
Qed.

Lemma requests_of_entries (apply_gain : Z -> list Z -> list Z)
    (entries : list (string * list Z)) (d : directory) :
  (forall name chunk, (name, chunk) ∈ entries -> d !! name = Some (File chunk false)) ->
  omap (fun name => (fun f => chunk_request apply_gain (file_samples f)) <$> d !! name)
       entries.*1
  = chunk_request apply_gain <$> entries.*2.
Proof.
  induction entries as [|[name chunk] entries IH]; intros H; [done|].
  cbn [fmap list_fmap omap list_omap fst snd].
  rewrite (H name chunk) by by left. cbn. f_equal.
  apply IH. intros n c Hin. apply H. by right.
Qed.

(** X24. A recording of at most 999 chunks, made while no old chunk of the
    directory is held by another program, is transcribed in the order in
    which it was recorded: the files found are the files written, and the
    k-th request carries the samples of the k-th chunk. *)
Theorem recording_transcribed_in_order {sample : Type} (to_int16 : sample -> Z)
    (apply_gain : Z -> list Z -> list Z) (service : nat -> request -> api_outcome)
    (dir : option directory) (events : list (event (sample:=sample))) (w : world) :
  let run := record_audio_chunk to_int16 events in
  let d := record_to_dir to_int16 dir events in
  length (written run) <= 999 ->
  (forall old name f,
     dir = Some old -> old !! name = Some f -> ends_with ".wav" name = true ->
     file_locked f = false) ->
  wav_files d = (written run).*1
  /\ calls (transcribe_recorded_chunks apply_gain service (Some d) w)
     = calls w ++ (chunk_request apply_gain <$> (written run).*2).
Proof.
  cbv zeta. intros Hlen Hfree.
  set (run := record_audio_chunk to_int16 events) in *.
  set (d := record_to_dir to_int16 dir events).
  assert ((written run).*1 = chunk_filename <$> seq 1 (length (written run))) as Hnum.
  { pose proof (numbered_record to_int16 samples_per_chunk events) as Hn.
    pose proof (written_count_record to_int16 samples_per_chunk events) as Hc.
    unfold numbered in Hn. by rewrite <- Hc in Hn. }
  assert (NoDup (written run).*1) as Hnd.
  { rewrite Hnum. apply NoDup_fmap_2; [|apply NoDup_seq].
    intros m n. apply chunk_filename_inj. }
  assert (forall name chunk, (name, chunk) ∈ written run ->
            d !! name = Some (File chunk false)) as Hread.
  { intros name chunk [k Hk]%list_elem_of_lookup.
    unfold d, record_to_dir. by eapply sf_write_fold_lookup. }
  assert (forall name, name ∈ List.filter (ends_with ".wav") (listdir d)
                       <-> name ∈ (written run).*1) as Hsame.
  { intros name. rewrite list_elem_of_In, filter_In, <- list_elem_of_In, listdir_spec.
    split.
    - intros [Hsome Hwav].
      destruct (decide (name ∈ (written run).*1)) as [|Hout]; [done|]. exfalso.
      unfold d, record_to_dir in Hsome. rewrite sf_write_fold_other in Hsome by done.
      destruct dir as [old|].
      + rewrite prepare_output_dir_lookup in Hsome. unfold after_cleanup in Hsome.
        destruct (old !! name) as [f|] eqn:Hf; [|by destruct Hsome].
        rewrite Hwav, (Hfree old name f eq_refl Hf Hwav) in Hsome. by destruct Hsome.
      + cbn in Hsome. rewrite lookup_empty in Hsome. by destruct Hsome.
    - intros Hin. split.
      + apply list_elem_of_fmap in Hin as [[n c] [-> Hin]].
        cbn [fst]. rewrite (Hread n c Hin). by eexists.
      + rewrite Hnum in Hin. apply list_elem_of_fmap in Hin as [i [-> _]].
        apply chunk_filename_wav. }
  assert (wav_files d = (written run).*1) as Hwav.
  { unfold wav_files.
    apply (Sorted_unique_strong name_le (Transitive0 := name_le_trans)).
    - intros x y _ _. apply String.leb_antisym.
    - apply sorted_sorted.
    - rewrite Hnum. apply chunk_names_sorted. lia.
    - rewrite sorted_perm. apply NoDup_Permutation; [|exact Hnd|exact Hsame].
      apply NoDup_ListNoDup, List.NoDup_filter, NoDup_ListNoDup.
      apply NoDup_fst_map_to_list. }
  split; [exact Hwav|].
  unfold transcribe_recorded_chunks. rewrite Hwav.
  rewrite <- (requests_of_entries apply_gain (written run) d Hread).
  destruct ((written run).*1) as [|name files] eqn:Hfiles.
  - cbn. by rewrite app_nil_r.
  - by destruct (mic_loop_calls apply_gain service d (name :: files)
                   (World (calls w) (clock_reads w) EmptyString)) as [-> _].
Qed.

Lemma recording_transcribed_in_order_witness :
  wav_files (record_to_dir id None [Callback [5%Z; 6%Z]])
  = (written (record_audio_chunk id [Callback [5%Z; 6%Z]])).*1
  /\ calls (transcribe_recorded_chunks no_gain (says "a")
              (Some (record_to_dir id None [Callback [5%Z; 6%Z]])) world_init)
     = calls world_init
       ++ (chunk_request no_gain
             <$> (written (record_audio_chunk id [Callback [5%Z; 6%Z]])).*2).
Proof.
  refine (recording_transcribed_in_order id no_gain (says "a") None
            [Callback [5%Z; 6%Z]] world_init _ _).
  - assert (length (written (record_audio_chunk id [Callback [5%Z; 6%Z]])) = 1) as ->
      by reflexivity.
    lia.
  - intros old name f H. discriminate H.
Defined.

(** ** The prompt of the window *)

Lemma mic_calls (apply_gain : Z -> list Z -> list Z)
    (service : nat -> request -> api_outcome) (d : directory) (w : world) :
  calls (transcribe_recorded_chunks apply_gain service (Some d) w)
  = calls w ++ wav_requests apply_gain d.
Proof.
  unfold transcribe_recorded_chunks, wav_requests.
  destruct (wav_files d) as [|name files] eqn:Hfiles.
  - cbn. by rewrite app_nil_r.
  - by destruct (mic_loop_calls apply_gain service d (name :: files)
                   (World (calls w) (clock_reads w) EmptyString)) as [-> _].
Qed.

Lemma form_data_no_prompt (speakers : nat) (p : string) :
  ~ In ("prompt", p) (form_data None speakers).
Proof.
  unfold form_data. rewrite app_nil_r. intros H. simpl in H.
  repeat (destruct H as [H | H]; [discriminate H|]). destruct H.
Qed.

(** X10. The prompt typed into the window reaches the service in file mode
    only. There every request of the worker has a [prompt] field exactly
    when the text typed is not blank, and the field then holds that text
    without the white space around it. In mic mode
    [transcribe_recorded_chunks] passes no prompt on: no request has a
    [prompt] field, whatever was typed. *)
Theorem prompt_field_iff_typed (apply_gain : Z -> list Z -> list Z)
    (service : nat -> request -> api_outcome) (typed : string) (speakers : nat)
    (audio : list (list Z)) (d : directory) (req : request) (p : string) :
  (req ∈ worker_calls (worker_file apply_gain service (ui_prompt typed) speakers
                                   audio (WorkerState [] []))
   -> (In ("prompt", p) (req_data req)
       <-> p = strip typed /\ truthy (strip typed) = true))
  /\ (req ∈ calls (transcribe_recorded_chunks apply_gain service (Some d) world_init)
      -> ~ In ("prompt", p) (req_data req)).
Proof.
  split.
  - unfold worker_file.
    destruct (worker_loop apply_gain service (ui_prompt typed) speakers
                (get_array_of_samples <$> process_audio_file audio)
                (WorkerState [] [])) as [-> _].
    cbn [worker_calls app]. intros [c [-> _]]%list_elem_of_fmap.
    cbn [req_data build_request]. apply form_data_prompt.
  - rewrite mic_calls. cbn [calls world_init app]. unfold wav_requests.
    intros Hin. apply list_elem_of_omap in Hin as (name & _ & Hreq).
    destruct (d !! name) as [f|]; [|discriminate Hreq].
    cbn in Hreq. injection Hreq as <-. apply form_data_no_prompt.
Qed.
